(** * nototools.hb_input: deriving HarfBuzz input for a glyph

    A shallow embedding of [nototools/hb_input.py] (class
    [HbInputGenerator] and [build_reverse_cmap]) together with the
    properties its specification states.

    Conventions of the embedding.
    - Glyph names and feature tags are strings; a text is the list of its
      code points ([list Z]); the tuple [features] is a [list string].
    - A Python call either returns a value, raises, or recurses without
      bound.  [outcome] has one constructor for each; the third one,
      [OutOfFuel], is what a fuel-indexed evaluation answers when the
      recursion is deeper than the fuel it was given.
    - A [for] loop whose body may [return] is [for_each]: the body answers
      [None] when the iteration falls through to the next one and
      [Some r] when the enclosing function exits with [r].
    - A [dict] that is only iterated is the list of its [items()] in
      iteration order; [self.reverse_cmap], which is only looked up, is a
      [gmap]. *)

From stdpp Require Import gmap strings list.

Local Open Scope Z_scope.

(** ** Outcomes of a call *)

Inductive exn : Type :=
  | ValueError_lookup (lookup_index : nat)
      (* ValueError('Lookup list index %d not found.' % lookup_index) *)
  | ValueError_unichr (arg : Z)
      (* unichr() arg not in range *)
  | TypeError
      (* unpacking None: 'NoneType' object is not iterable *)
  | IndexError
      (* list index out of range *)
  | AttributeError.
      (* 'NoneType' object has no attribute ... *)

Inductive outcome (A : Type) : Type :=
  | Return (a : A)
  | Raise (e : exn)
  | OutOfFuel.

Arguments Return {A} a.
Arguments Raise {A} e.
Arguments OutOfFuel {A}.

#[global] Instance outcome_ret : MRet outcome := fun A a => Return a.

#[global] Instance outcome_bind : MBind outcome := fun A B f m =>
  match m with
  | Return a => f a
  | Raise e => Raise e
  | OutOfFuel => OutOfFuel
  end.

#[global] Instance outcome_fmap : FMap outcome := fun A B f m =>
  match m with
  | Return a => Return (f a)
  | Raise e => Raise e
  | OutOfFuel => OutOfFuel
  end.

(** [determined o]: the call came to an end, by a value or an exception. *)
Definition determined {A} (o : outcome A) : Prop := o ≠ OutOfFuel.

(** ** Loops with early exit *)

Fixpoint for_each {A R : Type} (l : list A) (body : A → option R) : option R :=
  match l with
  | [] => None
  | x :: l' =>
      match body x with
      | Some r => Some r
      | None => for_each l' body
      end
  end.

(** [enumerate(l)], counting from [i]. *)
Fixpoint enumerate_from {A : Type} (i : nat) (l : list A) : list (nat * A) :=
  match l with
  | [] => []
  | x :: l' => (i, x) :: enumerate_from (S i) l'
  end.

Definition enumerate {A : Type} (l : list A) : list (nat * A) := enumerate_from 0 l.

(** ** The font tables the module reads (fontTools object graph) *)

Record Ligature : Type := mkLigature {
  LigGlyph : string;
  Component : list string
}.

(** LookupType 1: [st.mapping], input glyph to output glyph. *)
Record SingleSubst : Type := mkSingleSubst {
  mapping : list (string * string)
}.

(** LookupType 4: [st.ligatures], first component to its ligatures. *)
Record LigatureSubst : Type := mkLigatureSubst {
  ligatures : list (string * list Ligature)
}.

Record Coverage : Type := mkCoverage {
  glyphs : list string
}.

Record SubstLookupRec : Type := mkSubstLookupRec {
  SequenceIndex : nat;
  LookupListIndex : nat
}.

(** LookupType 6, as the module reads it (coverage-based contexts). *)
Record ChainContextSubst : Type := mkChainContextSubst {
  BacktrackCoverage : list Coverage;
  LookAheadCoverage : list Coverage;
  SubstLookupRecord : list SubstLookupRec
}.

(** A lookup is tagged by its [LookupType]; the tag fixes the class of
    its subtables.  [OtherLookup] stands for every type the module does
    not read (2, 3, 5, 7, 8). *)
Inductive Lookup : Type :=
  | SingleSubstLookup (SubTable : list SingleSubst)
  | LigatureSubstLookup (SubTable : list LigatureSubst)
  | ChainContextSubstLookup (SubTable : list ChainContextSubst)
  | OtherLookup.

(** [feature.FeatureTag] and [feature.Feature.LookupListIndex]. *)
Record FeatureRecord : Type := mkFeatureRecord {
  FeatureTag : string;
  Feature_LookupListIndex : list nat
}.

(** [font['GSUB'].table]: [FeatureList] is [gsub.FeatureList.FeatureRecord];
    [LookupList] is [None] when [gsub.LookupList is None] and otherwise
    [gsub.LookupList.Lookup]. *)
Record table_GSUB : Type := mktable_GSUB {
  FeatureList : list FeatureRecord;
  LookupList : option (list Lookup)
}.

Record Glyph : Type := mkGlyph {
  width : Z
}.

(** What the module reads from a [TTFont]: the glyph order, the glyph
    set, the items of [summary.get_largest_cmap(font)] in iteration
    order, and the GSUB table when ['GSUB' in font]. *)
Record TTFont : Type := mkTTFont {
  getGlyphOrder : list string;
  getGlyphSet : string → Glyph;
  get_largest_cmap : list (Z * string);
  GSUB : option table_GSUB
}.

(** ** build_reverse_cmap *)

Definition build_reverse_cmap (font : TTFont) : gmap string Z :=
  foldl (fun (m : gmap string Z) '(v, n) => <[n := v]> m) ∅ (get_largest_cmap font).

(** ** HbInputGenerator *)

Record HbInputGenerator : Type := mkHbInputGenerator {
  font : TTFont;
  reverse_cmap : gmap string Z
}.

Definition __init__ (font : TTFont) : HbInputGenerator :=
  {| font := font; reverse_cmap := build_reverse_cmap font |}.

(** [unichr(v)] on a UCS-4 build. *)
Definition unichr (v : Z) : outcome (list Z) :=
  if (0 <=? v) && (v <? 0x110000) then Return [v] else Raise (ValueError_unichr v).

Definition SPACE : Z := 32.

Abbreviation input := (list string * list Z)%type.

Section Resolver.

Variable self : HbInputGenerator.

Section Body.

(** The recursive calls [self.input_from_name(glyph, features)]. *)
Variable resolve : string → list string → outcome (option input).

Fixpoint sequence_loop (glyphs : list string) (features : list string)
    (text : list (list Z)) : outcome (list string * list (list Z)) :=
  match glyphs with
  | [] => Return (features, text)
  | glyph :: glyphs' =>
      r ← resolve glyph features;
      match r with
      | None => Raise TypeError
      | Some (features, cur_text) =>
          sequence_loop glyphs' features (text ++ [cur_text])
      end
  end.

Definition _sequence_from_glyph_names_body (glyphs : list string)
    (features : list string) : outcome input :=
  '(features, text) ← sequence_loop glyphs features [];
  Return (features, concat text).

Definition _input_with_context_body (gsub : table_GSUB) (glyph : string)
    (lookup_index : nat) (features : list string) : outcome (option input) :=
  (* try to get a feature tag to activate this lookup *)
  match
    for_each (FeatureList gsub) (fun feature =>
      if bool_decide (lookup_index ∈ Feature_LookupListIndex feature)
      then Some (resolve glyph (features ++ [FeatureTag feature]))
      else None)
  with
  | Some r => r
  | None =>
      (* try for a chaining substitution *)
      match LookupList gsub with
      | None => Raise AttributeError
      | Some lookups =>
          match
            for_each lookups (fun lookup =>
              match lookup with
              | ChainContextSubstLookup SubTable =>
                  for_each SubTable (fun st =>
                    for_each (SubstLookupRecord st) (fun sub_lookup =>
                      if bool_decide (LookupListIndex sub_lookup ≠ lookup_index)
                      then None
                      else
                        match LookAheadCoverage st, BacktrackCoverage st with
                        | c :: _, _ =>
                            Some
                              match glyphs c with
                              | g0 :: _ =>
                                  Some <$> _sequence_from_glyph_names_body
                                             [glyph; g0] features
                              | [] => Raise IndexError
                              end
                        | [], c :: _ =>
                            Some
                              match glyphs c with
                              | g0 :: _ =>
                                  Some <$> _sequence_from_glyph_names_body
                                             [g0; glyph] features
                              | [] => Raise IndexError
                              end
                        | [], [] => None
                        end))
              | _ => None
              end)
          with
          | Some r => r
          | None => Raise (ValueError_lookup lookup_index)
          end
      end
  end.

Definition input_from_name_body (name : string) (features : list string)
    (pad : bool) : outcome (option input) :=
  (* see if this glyph has a simple unicode mapping *)
  match reverse_cmap self !! name with
  | Some v =>
      text ← unichr v;
      Return (Some (features, if pad then [SPACE; SPACE] ++ text else text))
  | None =>
      (* nope, check the substitution features *)
      match GSUB (font self) with
      | None => Return None
      | Some gsub =>
          match LookupList gsub with
          | None => Return None
          | Some lookups =>
              match
                for_each (enumerate lookups) (fun '(lookup_index, lookup) =>
                  match lookup with
                  | SingleSubstLookup SubTable =>
                      for_each SubTable (fun st =>
                        for_each (mapping st) (fun '(glyph, subst) =>
                          if bool_decide (subst = name)
                          then Some (_input_with_context_body
                                       gsub glyph lookup_index features)
                          else None))
                  | LigatureSubstLookup SubTable =>
                      for_each SubTable (fun st =>
                        for_each (ligatures st) (fun '(prefix, ligatures) =>
                          for_each ligatures (fun ligature =>
                            if bool_decide (LigGlyph ligature = name)
                            then Some (Some <$> _sequence_from_glyph_names_body
                                         (prefix :: Component ligature) features)
                            else None)))
                  | _ => None
                  end)
              with
              | Some r => r
              | None => Return None
              end
          end
      end
  end.

End Body.

(** [input_from_name], with [fuel] bounding the depth of its recursion
    through [_input_with_context] and [_sequence_from_glyph_names]. *)
Fixpoint input_from_name (fuel : nat) (name : string) (features : list string)
    (pad : bool) : outcome (option input) :=
  match fuel with
  | O => OutOfFuel
  | S fuel' =>
      input_from_name_body
        (fun glyph features => input_from_name fuel' glyph features false)
        name features pad
  end.

Definition _input_with_context (fuel : nat) (gsub : table_GSUB) (glyph : string)
    (lookup_index : nat) (features : list string) : outcome (option input) :=
  _input_with_context_body
    (fun glyph features => input_from_name fuel glyph features false)
    gsub glyph lookup_index features.

Definition _sequence_from_glyph_names (fuel : nat) (glyphs : list string)
    (features : list string) : outcome input :=
  _sequence_from_glyph_names_body
    (fun glyph features => input_from_name fuel glyph features false)
    glyphs features.

Fixpoint all_inputs_loop (fuel : nat) (glyph_names : list string)
    (inputs : list input) : outcome (list input) :=
  match glyph_names with
  | [] => Return inputs
  | name :: glyph_names' =>
      let is_zero_width := width (getGlyphSet (font self) name) =? 0 in
      cur_input ← input_from_name fuel name [] is_zero_width;
      match cur_input with
      | Some cur_input => all_inputs_loop fuel glyph_names' (inputs ++ [cur_input])
      | None => all_inputs_loop fuel glyph_names' inputs
      end
  end.

(** [all_inputs(warn=False)]. *)
Definition all_inputs (fuel : nat) : outcome (list input) :=
  all_inputs_loop fuel (getGlyphOrder (font self)) [].

End Resolver.

(** ** The searches behind the loops

    Each loop of the module looks for the first item that makes it
    return.  The functions below run the same scans and answer what was
    found; the unfolding lemmas say that the code returns what it does
    at exactly that item. *)

(** The rule that makes [input_from_name] leave its loop over the
    lookups: a Type 1 entry [glyph -> name] of lookup [lookup_index], or
    a Type 4 ligature of result [name] with component sequence [glyphs]. *)
Inductive rule : Type :=
  | SingleRule (glyph : string) (lookup_index : nat)
  | LigatureRule (glyphs : list string).

Definition first_rule (lookups : list Lookup) (name : string) : option rule :=
  for_each (enumerate lookups) (fun '(lookup_index, lookup) =>
    match lookup with
    | SingleSubstLookup SubTable =>
        for_each SubTable (fun st =>
          for_each (mapping st) (fun '(glyph, subst) =>
            if bool_decide (subst = name)
            then Some (SingleRule glyph lookup_index) else None))
    | LigatureSubstLookup SubTable =>
        for_each SubTable (fun st =>
          for_each (ligatures st) (fun '(prefix, ligatures) =>
            for_each ligatures (fun ligature =>
              if bool_decide (LigGlyph ligature = name)
              then Some (LigatureRule (prefix :: Component ligature)) else None)))
    | _ => None
    end).

(** The tag of the first feature record whose lookup indices hold
    [lookup_index]. *)
Definition activating_feature (gsub : table_GSUB) (lookup_index : nat) : option string :=
  for_each (FeatureList gsub) (fun feature =>
    if bool_decide (lookup_index ∈ Feature_LookupListIndex feature)
    then Some (FeatureTag feature) else None).

(** The first Type 6 subtable, in scan order, that holds a
    SubstLookupRecord for [lookup_index] and declares a context. *)
Definition first_chain (lookups : list Lookup) (lookup_index : nat)
    : option ChainContextSubst :=
  for_each lookups (fun lookup =>
    match lookup with
    | ChainContextSubstLookup SubTable =>
        for_each SubTable (fun st =>
          for_each (SubstLookupRecord st) (fun sub_lookup =>
            if bool_decide (LookupListIndex sub_lookup ≠ lookup_index)
            then None
            else
              match LookAheadCoverage st, BacktrackCoverage st with
              | [], [] => None
              | _, _ => Some st
              end))
    | _ => None
    end).

(** The two-glyph sequence built from the context of a chaining subtable. *)
Definition context_glyphs (st : ChainContextSubst) (glyph : string)
    : outcome (list string) :=
  match LookAheadCoverage st, BacktrackCoverage st with
  | c :: _, _ =>
      match glyphs c with
      | g0 :: _ => Return [glyph; g0]
      | [] => Raise IndexError
      end
  | [], c :: _ =>
      match glyphs c with
      | g0 :: _ => Return [g0; glyph]
      | [] => Raise IndexError
      end
  | [], [] => Raise IndexError
  end.

(** What [input_from_name] does with the rule it stops at. *)
Definition apply_rule (resolve : string → list string → outcome (option input))
    (gsub : table_GSUB) (features : list string) (r : rule)
    : outcome (option input) :=
  match r with
  | SingleRule glyph lookup_index =>
      _input_with_context_body resolve gsub glyph lookup_index features
  | LigatureRule glyphs =>
      Some <$> _sequence_from_glyph_names_body resolve glyphs features
  end.

(** What [_input_with_context] does with the chaining subtable it stops at. *)
Definition apply_chain (resolve : string → list string → outcome (option input))
    (glyph : string) (features : list string)
    (st : ChainContextSubst) : outcome (option input) :=
  glyphs ← context_glyphs st glyph;
  Some <$> _sequence_from_glyph_names_body resolve glyphs features.

(** ** Comparing outcomes *)

(** [outcome_le o1 o2]: [o2] is [o1], unless [o1] ran out of fuel. *)
Definition outcome_le {A} (o1 o2 : outcome A) : Prop := o1 = OutOfFuel ∨ o1 = o2.

(** ** Direct hits *)

(** [text_of self g]: the text of [g] when [g] has a direct Unicode hit. *)
Definition text_of (self : HbInputGenerator) (glyph : string) : option (list Z) :=
  match reverse_cmap self !! glyph with
  | Some v =>
      match unichr v with
      | Return text => Some text
      | _ => None
      end
  | None => None
  end.

(** ** What the scans find, in terms of the tables *)

(** Lookup [k] of [lookups] is a Type 1 lookup with a subtable mapping
    [a] to [b]. *)
Definition single_subst_at (lookups : list Lookup) (k : nat) (a b : string) : Prop :=
  ∃ sts st, lookups !! k = Some (SingleSubstLookup sts) ∧ st ∈ sts ∧ (a, b) ∈ mapping st.

(** Some Type 4 subtable of [lookups] holds a ligature record mapping the
    component sequence [components] to [lig]. *)
Definition ligature_in (lookups : list Lookup) (components : list string)
    (lig : string) : Prop :=
  ∃ sts st prefix ligs ligature,
    LigatureSubstLookup sts ∈ lookups ∧ st ∈ sts ∧ (prefix, ligs) ∈ ligatures st ∧
    ligature ∈ ligs ∧ LigGlyph ligature = lig ∧
    components = prefix :: Component ligature.

(** Some feature record with tag [tag] lists [k]. *)
Definition activated_by (gsub : table_GSUB) (k : nat) (tag : string) : Prop :=
  ∃ feature, feature ∈ FeatureList gsub ∧ FeatureTag feature = tag ∧
             k ∈ Feature_LookupListIndex feature.

(** [st] is a Type 6 subtable of [lookups] with a SubstLookupRecord for [k]. *)
Definition chain_targets (lookups : list Lookup) (st : ChainContextSubst) (k : nat)
    : Prop :=
  ∃ sts sub_lookup, ChainContextSubstLookup sts ∈ lookups ∧ st ∈ sts ∧
                    sub_lookup ∈ SubstLookupRecord st ∧ LookupListIndex sub_lookup = k.

(** No Type 1 mapping and no Type 4 ligature record produces [name]. *)
Definition no_rule_produces (lookups : list Lookup) (name : string) : Prop :=
  (∀ k a, ¬ single_subst_at lookups k a name) ∧
  (∀ components, ¬ ligature_in lookups components name).

(** ** The forward map *)

(** The forward map is well formed: its code points are pairwise
    distinct (it is a dict) and each is a code point. *)
Definition cmap_wf (font : TTFont) : Prop :=
  NoDup (get_largest_cmap font).*1 ∧
  Forall (fun item => 0 ≤ item.1 < 0x110000) (get_largest_cmap font).

(** [cmap[v]] on the forward map. *)
Definition cmap_get (font : TTFont) (v : Z) : option string :=
  (list_to_map (get_largest_cmap font) : gmap Z string) !! v.

(** ** The dependency relation of the rules *)

(** The lookups of the font, none when there is no GSUB table or no
    lookup list. *)
Definition lookups_of (self : HbInputGenerator) : list Lookup :=
  match GSUB (font self) with
  | Some gsub =>
      match LookupList gsub with
      | Some lookups => lookups
      | None => []
      end
  | None => []
  end.

(** [x] is the glyph [_input_with_context] takes from the context of
    [st]: the first glyph of the first lookahead coverage, or, without
    lookahead, of the first backtrack coverage. *)
Definition context_glyph (st : ChainContextSubst) (x : string) : Prop :=
  (∃ c cs xs, LookAheadCoverage st = c :: cs ∧ glyphs c = x :: xs) ∨
  (∃ c cs xs, LookAheadCoverage st = [] ∧ BacktrackCoverage st = c :: cs ∧
              glyphs c = x :: xs).

(** The substitution dependency relation: [depends lookups g h] when
    resolving [g] through the rules may ask for [h].  Type 1: output to
    input.  Type 4: ligature to each component.  Type 6: output of a
    Type 1 rule to the context glyph of a subtable chaining to that
    rule's lookup. *)
Inductive depends (lookups : list Lookup) (g : string) : string → Prop :=
  | depends_single k a :
      single_subst_at lookups k a g → depends lookups g a
  | depends_ligature components h :
      ligature_in lookups components g → h ∈ components → depends lookups g h
  | depends_context k a st x :
      single_subst_at lookups k a g → chain_targets lookups st k →
      context_glyph st x → depends lookups g x.

(** [resolved_for self h g]: [g] is not in the Unicode map and depends
    on [h].  Its well-foundedness says that following the edges from any
    glyph always ends in the Unicode map, never coming back to a glyph. *)
Definition resolved_for (self : HbInputGenerator) (h g : string) : Prop :=
  reverse_cmap self !! g = None ∧ depends (lookups_of self) g h.

Definition terminates (self : HbInputGenerator) (g : string) : Prop :=
  ∀ features pad, ∃ fuel, determined (input_from_name self fuel g features pad).

(** ** The features argument as a Python object

    [features] is a tuple by default and in every call the module makes
    itself, but a caller may pass a list.  On a tuple,
    [features += (tag,)] binds the name to a new tuple; on a list it
    extends the caller's list in place.  The functions below are the
    same code with the lists of the caller in a store: [features] is a
    tuple value or a reference to a list of the store, and a call
    takes a store and gives back the store it leaves. *)

Inductive features_object : Type :=
  | FeaturesTuple (tags : list string)
  | FeaturesList (ref : nat).

Abbreviation store := (gmap nat (list string)).

Abbreviation input_object := (features_object * list Z)%type.

Definition stateful (A : Type) : Type := store → outcome A * store.

Definition retS {A} (a : A) : stateful A := fun h => (Return a, h).

Definition raiseS {A} (e : exn) : stateful A := fun h => (Raise e, h).

Definition out_of_fuelS {A} : stateful A := fun h => (OutOfFuel, h).

Definition bindS {A B} (m : stateful A) (f : A → stateful B) : stateful B :=
  fun h =>
    match m h with
    | (Return a, h') => f a h'
    | (Raise e, h') => (Raise e, h')
    | (OutOfFuel, h') => (OutOfFuel, h')
    end.

(** [features += (tag,)]. *)
Definition features_iadd (features : features_object) (tag : string)
    : stateful features_object :=
  fun h =>
    match features with
    | FeaturesTuple tags => (Return (FeaturesTuple (tags ++ [tag])), h)
    | FeaturesList ref =>
        (Return (FeaturesList ref), alter (fun tags => tags ++ [tag]) ref h)
    end.

Section ResolverWithStore.

Variable self : HbInputGenerator.

Section BodyWithStore.

Variable resolve : string → features_object → stateful (option input_object).

Fixpoint sequence_loop_st (glyphs : list string) (features : features_object)
    (text : list (list Z)) : stateful (features_object * list (list Z)) :=
  match glyphs with
  | [] => retS (features, text)
  | glyph :: glyphs' =>
      bindS (resolve glyph features) (fun r =>
        match r with
        | None => raiseS TypeError
        | Some (features, cur_text) =>
            sequence_loop_st glyphs' features (text ++ [cur_text])
        end)
  end.

Definition _sequence_from_glyph_names_body_st (glyphs : list string)
    (features : features_object) : stateful input_object :=
  bindS (sequence_loop_st glyphs features [])
        (fun '(features, text) => retS (features, concat text)).

Definition _input_with_context_body_st (gsub : table_GSUB) (glyph : string)
    (lookup_index : nat) (features : features_object)
    : stateful (option input_object) :=
  match
    for_each (FeatureList gsub) (fun feature =>
      if bool_decide (lookup_index ∈ Feature_LookupListIndex feature)
      then Some (bindS (features_iadd features (FeatureTag feature))
                       (fun features => resolve glyph features))
      else None)
  with
  | Some r => r
  | None =>
      match LookupList gsub with
      | None => raiseS AttributeError
      | Some lookups =>
          match
            for_each lookups (fun lookup =>
              match lookup with
              | ChainContextSubstLookup SubTable =>
                  for_each SubTable (fun st =>
                    for_each (SubstLookupRecord st) (fun sub_lookup =>
                      if bool_decide (LookupListIndex sub_lookup ≠ lookup_index)
                      then None
                      else
                        match LookAheadCoverage st, BacktrackCoverage st with
                        | c :: _, _ =>
                            Some
                              match glyphs c with
                              | g0 :: _ =>
                                  bindS (_sequence_from_glyph_names_body_st
                                           [glyph; g0] features)
                                        (fun r => retS (Some r))
                              | [] => raiseS IndexError
                              end
                        | [], c :: _ =>
                            Some
                              match glyphs c with
                              | g0 :: _ =>
                                  bindS (_sequence_from_glyph_names_body_st
                                           [g0; glyph] features)
                                        (fun r => retS (Some r))
                              | [] => raiseS IndexError
                              end
                        | [], [] => None
                        end))
              | _ => None
              end)
          with
          | Some r => r
          | None => raiseS (ValueError_lookup lookup_index)
          end
      end
  end.

Definition input_from_name_body_st (name : string) (features : features_object)
    (pad : bool) : stateful (option input_object) :=
  match reverse_cmap self !! name with
  | Some v =>
      fun h =>
        (text ← unichr v;
         Return (Some (features, if pad then [SPACE; SPACE] ++ text else text)), h)
  | None =>
      match GSUB (font self) with
      | None => retS None
      | Some gsub =>
          match LookupList gsub with
          | None => retS None
          | Some lookups =>
              match
                for_each (enumerate lookups) (fun '(lookup_index, lookup) =>
                  match lookup with
                  | SingleSubstLookup SubTable =>
                      for_each SubTable (fun st =>
                        for_each (mapping st) (fun '(glyph, subst) =>
                          if bool_decide (subst = name)
                          then Some (_input_with_context_body_st
                                       gsub glyph lookup_index features)
                          else None))
                  | LigatureSubstLookup SubTable =>
                      for_each SubTable (fun st =>
                        for_each (ligatures st) (fun '(prefix, ligatures) =>
                          for_each ligatures (fun ligature =>
                            if bool_decide (LigGlyph ligature = name)
                            then Some (bindS (_sequence_from_glyph_names_body_st
                                                (prefix :: Component ligature) features)
                                             (fun r => retS (Some r)))
                            else None)))
                  | _ => None
                  end)
              with
              | Some r => r
              | None => retS None
              end
          end
      end
  end.

End BodyWithStore.

Fixpoint input_from_name_st (fuel : nat) (name : string) (features : features_object)
    (pad : bool) : stateful (option input_object) :=
  match fuel with
  | O => out_of_fuelS
  | S fuel' =>
      input_from_name_body_st
        (fun glyph features => input_from_name_st fuel' glyph features false)
        name features pad
  end.

End ResolverWithStore.

(** A result of the tuple-only functions, as a result with objects. *)
Definition as_tuple (r : option input) : option input_object :=
  (fun '(features, text) => (FeaturesTuple features, text)) <$> r.

(** [on_tuples m o]: from any store, [m] has the outcome [o] and leaves
    the store as it was. *)
Definition on_tuples (m : stateful (option input_object))
    (o : outcome (option input)) : Prop :=
  ∀ h, m h = (as_tuple <$> o, h).

(** ** Example fonts *)

Local Open Scope string_scope.
Local Open Scope list_scope.

(** One glyph, "A", mapped from U+0041; no GSUB table. *)
Definition font_plain : TTFont := {|
  getGlyphOrder := ["A"; "Z"];
  getGlyphSet := fun _ => mkGlyph 600;
  get_largest_cmap := [(65, "A")];
  GSUB := None
|}.

(** A Type 6 subtable with a record for lookup 0 and no context at all;
    no feature record. *)
Definition gsub_no_context : table_GSUB := {|
  FeatureList := [];
  LookupList := Some
    [SingleSubstLookup [mkSingleSubst [("A", "B")]];
     ChainContextSubstLookup [mkChainContextSubst [] [] [mkSubstLookupRec 0 0]]]
|}.

(** Two Type 1 rules produce "B": lookup 0 from "X" (feature "aaaa"),
    lookup 1 from "A" (feature "test"). *)
Definition gsub_two_rules : table_GSUB := {|
  FeatureList := [mkFeatureRecord "aaaa" [0%nat]; mkFeatureRecord "test" [1%nat]];
  LookupList := Some
    [SingleSubstLookup [mkSingleSubst [("X", "B")]];
     SingleSubstLookup [mkSingleSubst [("A", "B")]]]
|}.

Definition font_two_rules : TTFont := {|
  getGlyphOrder := ["A"; "X"; "B"];
  getGlyphSet := fun _ => mkGlyph 600;
  get_largest_cmap := [(65, "A"); (88, "X")];
  GSUB := Some gsub_two_rules
|}.

(** One Type 1 rule, "A" to "B", in lookup 0, activated by "test";
    "B" has zero advance width. *)
Definition gsub_single : table_GSUB := {|
  FeatureList := [mkFeatureRecord "test" [0%nat]];
  LookupList := Some [SingleSubstLookup [mkSingleSubst [("A", "B")]]]
|}.

Definition font_single : TTFont := {|
  getGlyphOrder := ["A"; "B"];
  getGlyphSet := fun name => if bool_decide (name = "B") then mkGlyph 0 else mkGlyph 600;
  get_largest_cmap := [(65, "A")];
  GSUB := Some gsub_single
|}.

(** A ligature "A" "C" -> "L" in lookup 1, behind a Type 1 rule
    "X" -> "L" in lookup 0 (feature "aaaa"). *)
Definition gsub_ligature_shadowed : table_GSUB := {|
  FeatureList := [mkFeatureRecord "aaaa" [0%nat]; mkFeatureRecord "liga" [1%nat]];
  LookupList := Some
    [SingleSubstLookup [mkSingleSubst [("X", "L")]];
     LigatureSubstLookup [mkLigatureSubst [("A", [mkLigature "L" ["C"]])]]]
|}.

Definition font_ligature_shadowed : TTFont := {|
  getGlyphOrder := ["A"; "C"; "X"; "L"];
  getGlyphSet := fun _ => mkGlyph 600;
  get_largest_cmap := [(65, "A"); (67, "C"); (88, "X")];
  GSUB := Some gsub_ligature_shadowed
|}.

(** The ligature alone. *)
Definition gsub_ligature : table_GSUB := {|
  FeatureList := [mkFeatureRecord "liga" [0%nat]];
  LookupList := Some
    [LigatureSubstLookup [mkLigatureSubst [("A", [mkLigature "L" ["C"]])]]]
|}.

Definition font_ligature : TTFont := {|
  getGlyphOrder := ["A"; "C"; "L"];
  getGlyphSet := fun _ => mkGlyph 600;
  get_largest_cmap := [(65, "A"); (67, "C")];
  GSUB := Some gsub_ligature
|}.

(** Lookup 0 (Type 1, "A" to "B") is listed by no feature record; two
    Type 6 subtables hold a record for it, the first with lookahead "X",
    the second with lookahead "Y". *)
Definition chain_X : ChainContextSubst :=
  mkChainContextSubst [] [mkCoverage ["X"]] [mkSubstLookupRec 0 0].

Definition chain_Y : ChainContextSubst :=
  mkChainContextSubst [] [mkCoverage ["Y"]] [mkSubstLookupRec 0 0].

Definition gsub_two_chains : table_GSUB := {|
  FeatureList := [mkFeatureRecord "calt" [1%nat]];
  LookupList := Some
    [SingleSubstLookup [mkSingleSubst [("A", "B")]];
     ChainContextSubstLookup [chain_X; chain_Y]]
|}.

Definition font_two_chains : TTFont := {|
  getGlyphOrder := ["A"; "X"; "Y"; "B"];
  getGlyphSet := fun _ => mkGlyph 600;
  get_largest_cmap := [(65, "A"); (88, "X"); (89, "Y")];
  GSUB := Some gsub_two_chains
|}.

(** A Type 1 rule sending "B" to itself, activated by "test"; no
    Unicode mapping. *)
Definition gsub_cyclic : table_GSUB := {|
  FeatureList := [mkFeatureRecord "test" [0%nat]];
  LookupList := Some [SingleSubstLookup [mkSingleSubst [("B", "B")]]]
|}.

Definition font_cyclic : TTFont := {|
  getGlyphOrder := ["B"];
  getGlyphSet := fun _ => mkGlyph 600;
  get_largest_cmap := [];
  GSUB := Some gsub_cyclic
|}.

(** ** Further notions *)

(** A text with the two spaces of [pad] before it. *)
Definition padded (r : option input) : option input :=
  (fun '(features, text) => (features, [SPACE; SPACE] ++ text)) <$> r.

(** The entry [all_inputs] collects for a glyph with a direct hit. *)
Definition direct_input (self : HbInputGenerator) (name : string) : option input :=
  (fun v => ([], if (width (getGlyphSet (font self) name) =? 0)%Z
                 then [SPACE; SPACE; v] else [v]))
    <$> reverse_cmap self !! name.

(** The tags of the feature records of the font. *)
Definition font_feature_tags (self : HbInputGenerator) : list string :=
  match GSUB (font self) with
  | Some gsub => FeatureTag <$> FeatureList gsub
  | None => []
  end.

(** The first coverage of the context [_input_with_context] reads from
    [st] has no glyph. *)
Definition empty_first_coverage (st : ChainContextSubst) : Prop :=
  (∃ c cs, LookAheadCoverage st = c :: cs ∧ glyphs c = []) ∨
  (∃ c cs, LookAheadCoverage st = [] ∧ BacktrackCoverage st = c :: cs ∧
           glyphs c = []).

(** Lookup [k] is a Type 1 lookup producing some glyph that nothing
    activates: no feature record lists it, and no Type 6 subtable
    holding a SubstLookupRecord for it declares a context. *)
Definition unreachable_lookup (self : HbInputGenerator) (k : nat) : Prop :=
  ∃ gsub a g,
    GSUB (font self) = Some gsub ∧
    single_subst_at (lookups_of self) k a g ∧
    (∀ tag, ¬ activated_by gsub k tag) ∧
    (∀ st, chain_targets (lookups_of self) st k →
           LookAheadCoverage st = [] ∧ BacktrackCoverage st = []).

(** [single_chain self gsub lookups g tags g0]: from [g], the rule found
    is each time a Type 1 entry in a lookup some feature record
    activates, down to [g0]; [tags] are the tags met on the way. *)
Inductive single_chain (self : HbInputGenerator) (gsub : table_GSUB)
    (lookups : list Lookup) : string → list string → string → Prop :=
  | single_chain_end g : single_chain self gsub lookups g [] g
  | single_chain_step g a k tag tags g0 :
      reverse_cmap self !! g = None →
      first_rule lookups g = Some (SingleRule a k) →
      activating_feature gsub k = Some tag →
      single_chain self gsub lookups a tags g0 →
      single_chain self gsub lookups g (tag :: tags) g0.

(** The font of [gsub_no_context]: "B" comes from "A" by lookup 0, which
    nothing activates. *)
Definition font_no_context : TTFont := {|
  getGlyphOrder := ["A"; "B"];
  getGlyphSet := fun _ => mkGlyph 600;
  get_largest_cmap := [(65, "A")];
  GSUB := Some gsub_no_context
|}.

(** A Type 1 rule sending "B" to itself in lookup 1, activated by
    "test", behind a Type 1 rule "X" to "B" in lookup 0 (feature "aaaa"). *)
Definition gsub_shadowed_loop : table_GSUB := {|
  FeatureList := [mkFeatureRecord "aaaa" [0%nat]; mkFeatureRecord "test" [1%nat]];
  LookupList := Some
    [SingleSubstLookup [mkSingleSubst [("X", "B")]];
     SingleSubstLookup [mkSingleSubst [("B", "B")]]]
|}.

Definition font_shadowed_loop : TTFont := {|
  getGlyphOrder := ["X"; "B"];
  getGlyphSet := fun _ => mkGlyph 600;
  get_largest_cmap := [(88, "X")];
  GSUB := Some gsub_shadowed_loop
|}.

(** A ligature "A" "Z" -> "L" whose component "Z" no code point and no
    rule produces. *)
Definition gsub_ligature_unreachable : table_GSUB := {|
  FeatureList := [mkFeatureRecord "liga" [0%nat]];
  LookupList := Some
    [LigatureSubstLookup [mkLigatureSubst [("A", [mkLigature "L" ["Z"]])]]]
|}.

Definition font_ligature_unreachable : TTFont := {|
  getGlyphOrder := ["A"; "Z"; "L"];
  getGlyphSet := fun _ => mkGlyph 600;
  get_largest_cmap := [(65, "A")];
  GSUB := Some gsub_ligature_unreachable
|}.

(** "A" is mapped from U+0041 and, later in the iteration, from U+0391. *)
Definition font_two_code_points : TTFont := {|
  getGlyphOrder := ["A"];
  getGlyphSet := fun _ => mkGlyph 600;
  get_largest_cmap := [(65, "A"); (913, "A")];
  GSUB := None
|}.

(** "A" to "B" in lookup 0 (feature "smcp"), "B" to "C" in lookup 1
    (feature "ss01"). *)
Definition gsub_two_steps : table_GSUB := {|
  FeatureList := [mkFeatureRecord "smcp" [0%nat]; mkFeatureRecord "ss01" [1%nat]];
  LookupList := Some
    [SingleSubstLookup [mkSingleSubst [("A", "B")]];
     SingleSubstLookup [mkSingleSubst [("B", "C")]]]
|}.

Definition font_two_steps : TTFont := {|
  getGlyphOrder := ["A"; "B"; "C"];
  getGlyphSet := fun _ => mkGlyph 600;
  get_largest_cmap := [(65, "A")];
  GSUB := Some gsub_two_steps
|}.

(** A chaining subtable for lookup 0 whose lookahead coverage is empty. *)
Definition chain_empty : ChainContextSubst :=
  mkChainContextSubst [] [mkCoverage []] [mkSubstLookupRec 0 0].

Definition gsub_empty_coverage : table_GSUB := {|
  FeatureList := [mkFeatureRecord "calt" [1%nat]];
  LookupList := Some
    [SingleSubstLookup [mkSingleSubst [("A", "B")]];
     ChainContextSubstLookup [chain_empty]]
|}.

Definition font_empty_coverage : TTFont := {|
  getGlyphOrder := ["A"; "B"];
  getGlyphSet := fun _ => mkGlyph 600;
  get_largest_cmap := [(65, "A")];
  GSUB := Some gsub_empty_coverage
|}.

(** * Properties *)

(** ** Generic facts on loops and outcomes *)

Section ForEach.

Context {A R : Type}.
Implicit Types (l : list A) (body : A → option R).

Lemma for_each_ext l body body' :
  (∀ x, x ∈ l → body x = body' x) → for_each l body = for_each l body'.
Proof.
  induction l as [|x l IH]; intros Hext; simpl; [done|].
  rewrite (Hext x) by left.
  destruct (body' x); [done|].
  apply IH. intros y Hy. apply Hext. by right.
Qed.

Lemma for_each_app l1 l2 body :
  for_each (l1 ++ l2) body =
    match for_each l1 body with
    | Some r => Some r
    | None => for_each l2 body
    end.
Proof.
  induction l1 as [|x l1 IH]; simpl; [done|].
  by destruct (body x).
Qed.

Lemma for_each_None l body :
  for_each l body = None ↔ ∀ x, x ∈ l → body x = None.
Proof.
  induction l as [|x l IH]; simpl.
  - split; [|done]. intros _ y Hy. by apply elem_of_nil in Hy.
  - destruct (body x) eqn:Hx.
    + split; [done|]. intros H. specialize (H x). rewrite Hx in H.
      apply H. by left.
    + rewrite IH. split.
      * intros H y Hy. apply elem_of_cons in Hy as [->|Hy]; auto.
      * intros H y Hy. apply H. by right.
Qed.

Lemma for_each_Some l body r :
  for_each l body = Some r → ∃ x, x ∈ l ∧ body x = Some r.
Proof.
  induction l as [|x l IH]; simpl; [done|].
  destruct (body x) eqn:Hx.
  - intros [= <-]. exists x. split; [by left|done].
  - intros H. destruct (IH H) as (y & Hy & Hb).
    exists y. split; [by right|done].
Qed.

Lemma for_each_fmap {R' : Type} (f : R → R') l body :
  for_each l (fun x => f <$> body x) = f <$> for_each l body.
Proof.
  induction l as [|x l IH]; simpl; [done|].
  by destruct (body x).
Qed.

Lemma for_each_const l body r :
  (∀ x, x ∈ l → body x = None ∨ body x = Some r) →
  (∃ x, x ∈ l ∧ body x = Some r) →
  for_each l body = Some r.
Proof.
  intros Hall (x & Hx & Hr).
  destruct (for_each l body) as [r'|] eqn:Hfor.
  - apply for_each_Some in Hfor as (y & Hy & Hr').
    destruct (Hall y Hy) as [Hn|Hs]; congruence.
  - rewrite for_each_None in Hfor. rewrite (Hfor x Hx) in Hr. done.
Qed.

End ForEach.

Lemma enumerate_from_app {A} (i : nat) (l1 l2 : list A) :
  enumerate_from i (l1 ++ l2) =
    enumerate_from i l1 ++ enumerate_from (i + length l1) l2.
Proof.
  revert i. induction l1 as [|x l1 IH]; intros i; simpl.
  - by rewrite Nat.add_0_r.
  - rewrite IH. by replace (S i + length l1)%nat with (i + S (length l1))%nat by lia.
Qed.

Lemma elem_of_enumerate_from {A} (i k : nat) (x : A) (l : list A) :
  (k, x) ∈ enumerate_from i l → ∃ j, k = (i + j)%nat ∧ l !! j = Some x.
Proof.
  revert i. induction l as [|y l IH]; intros i; simpl.
  - intros H. by apply elem_of_nil in H.
  - intros [[= -> ->]|H]%elem_of_cons.
    + exists 0%nat. split; [lia|done].
    + destruct (IH _ H) as (j & -> & Hj). exists (S j). split; [lia|done].
Qed.

(** ** The code returns at the item the searches find *)

Section Unfolding.

Variable self : HbInputGenerator.
Variable resolve : string → list string → outcome (option input).

Lemma _input_with_context_body_eq gsub glyph lookup_index features :
  _input_with_context_body resolve gsub glyph lookup_index features =
    match activating_feature gsub lookup_index with
    | Some tag => resolve glyph (features ++ [tag])
    | None =>
        match LookupList gsub with
        | None => Raise AttributeError
        | Some lookups =>
            match first_chain lookups lookup_index with
            | Some st => apply_chain resolve glyph features st
            | None => Raise (ValueError_lookup lookup_index)
            end
        end
    end.
Proof.
  unfold _input_with_context_body, activating_feature.
  set (by_tag := fun tag => resolve glyph (features ++ [tag])).
  match goal with |- match ?scan with _ => _ end = _ =>
    assert (scan = by_tag <$> for_each (FeatureList gsub) (fun feature =>
      if bool_decide (lookup_index ∈ Feature_LookupListIndex feature)
      then Some (FeatureTag feature) else None)) as ->
  end.
  { rewrite <- for_each_fmap. apply for_each_ext.
    intros feature _. by destruct (bool_decide _). }
  destruct (for_each (FeatureList gsub) _) as [tag|]; [done|]. simpl.
  destruct (LookupList gsub) as [lookups|]; [|done].
  match goal with |- match ?scan with _ => _ end = _ =>
    assert (scan = apply_chain resolve glyph features <$> first_chain lookups lookup_index)
      as ->
  end.
  { unfold first_chain. rewrite <- for_each_fmap. apply for_each_ext.
    intros [sts|sts|sts|] _; try done.
    rewrite <- for_each_fmap. apply for_each_ext. intros st _.
    rewrite <- for_each_fmap. apply for_each_ext. intros sub_lookup _.
    destruct (bool_decide _); [done|].
    unfold apply_chain, context_glyphs.
    destruct (LookAheadCoverage st) as [|c cs] eqn:Ha;
      [destruct (BacktrackCoverage st) as [|c cs] eqn:Hb|];
      simpl; rewrite ?Ha, ?Hb; try done; by destruct (glyphs c). }
  by destruct (first_chain lookups lookup_index).
Qed.

Lemma input_from_name_body_eq name features pad :
  input_from_name_body self resolve name features pad =
    match reverse_cmap self !! name with
    | Some v =>
        text ← unichr v;
        Return (Some (features, if pad then [SPACE; SPACE] ++ text else text))
    | None =>
        match GSUB (font self) with
        | None => Return None
        | Some gsub =>
            match LookupList gsub with
            | None => Return None
            | Some lookups =>
                match first_rule lookups name with
                | Some r => apply_rule resolve gsub features r
                | None => Return None
                end
            end
        end
    end.
Proof.
  unfold input_from_name_body.
  destruct (reverse_cmap self !! name); [done|].
  destruct (GSUB (font self)) as [gsub|]; [|done].
  destruct (LookupList gsub) as [lookups|] eqn:Hl; [|done].
  match goal with |- match ?scan with _ => _ end = _ =>
    assert (scan = apply_rule resolve gsub features <$> first_rule lookups name) as ->
  end.
  { unfold first_rule. rewrite <- for_each_fmap. apply for_each_ext.
    intros [lookup_index [sts|sts|sts|]] _; try done.
    - rewrite <- for_each_fmap. apply for_each_ext. intros st _.
      rewrite <- for_each_fmap. apply for_each_ext. intros [glyph subst] _.
      by destruct (bool_decide _).
    - rewrite <- for_each_fmap. apply for_each_ext. intros st _.
      rewrite <- for_each_fmap. apply for_each_ext. intros [prefix ligs] _.
      rewrite <- for_each_fmap. apply for_each_ext. intros ligature _.
      by destruct (bool_decide _). }
  by destruct (first_rule lookups name).
Qed.

End Unfolding.

(** ** More fuel never changes an outcome that was reached *)

Lemma outcome_bind_Return {A B} (a : A) (f : A → outcome B) : Return a ≫= f = f a.
Proof. done. Qed.

Lemma outcome_le_refl {A} (o : outcome A) : outcome_le o o.
Proof. by right. Qed.

Lemma outcome_le_determined {A} (o1 o2 : outcome A) :
  outcome_le o1 o2 → determined o1 → o2 = o1.
Proof. by intros [->| ->] Hd. Qed.

Lemma outcome_le_bind {A B} (m1 m2 : outcome A) (f1 f2 : A → outcome B) :
  outcome_le m1 m2 → (∀ a, outcome_le (f1 a) (f2 a)) →
  outcome_le (m1 ≫= f1) (m2 ≫= f2).
Proof.
  intros [->| ->] Hf; [by left|].
  destruct m2; simpl; [apply Hf|by right|by left].
Qed.

Lemma outcome_le_fmap {A B} (f : A → B) (m1 m2 : outcome A) :
  outcome_le m1 m2 → outcome_le (f <$> m1) (f <$> m2).
Proof. intros [->| ->]; [by left|by right]. Qed.

Section Monotone.

Variable self : HbInputGenerator.
Variables resolve1 resolve2 : string → list string → outcome (option input).
Hypothesis resolve_le : ∀ glyph features,
  outcome_le (resolve1 glyph features) (resolve2 glyph features).

Lemma sequence_loop_le glyphs features text :
  outcome_le (sequence_loop resolve1 glyphs features text)
             (sequence_loop resolve2 glyphs features text).
Proof.
  revert features text.
  induction glyphs as [|glyph glyphs IH]; intros features text; simpl.
  - apply outcome_le_refl.
  - apply outcome_le_bind; [apply resolve_le|].
    intros [[features' cur_text]|]; [apply IH|apply outcome_le_refl].
Qed.

Lemma _sequence_from_glyph_names_body_le glyphs features :
  outcome_le (_sequence_from_glyph_names_body resolve1 glyphs features)
             (_sequence_from_glyph_names_body resolve2 glyphs features).
Proof.
  unfold _sequence_from_glyph_names_body.
  apply outcome_le_bind; [apply sequence_loop_le|].
  intros [features' text]. apply outcome_le_refl.
Qed.

Lemma _input_with_context_body_le gsub glyph lookup_index features :
  outcome_le (_input_with_context_body resolve1 gsub glyph lookup_index features)
             (_input_with_context_body resolve2 gsub glyph lookup_index features).
Proof.
  rewrite !_input_with_context_body_eq.
  destruct (activating_feature gsub lookup_index); [apply resolve_le|].
  destruct (LookupList gsub) as [lookups|]; [|apply outcome_le_refl].
  destruct (first_chain lookups lookup_index) as [st|]; [|apply outcome_le_refl].
  unfold apply_chain.
  apply outcome_le_bind; [apply outcome_le_refl|].
  intros glyphs. apply outcome_le_fmap, _sequence_from_glyph_names_body_le.
Qed.

Lemma input_from_name_body_le name features pad :
  outcome_le (input_from_name_body self resolve1 name features pad)
             (input_from_name_body self resolve2 name features pad).
Proof.
  rewrite !input_from_name_body_eq.
  destruct (reverse_cmap self !! name); [apply outcome_le_refl|].
  destruct (GSUB (font self)) as [gsub|]; [|apply outcome_le_refl].
  destruct (LookupList gsub) as [lookups|]; [|apply outcome_le_refl].
  destruct (first_rule lookups name) as [[glyph k|glyphs]|]; simpl.
  - apply _input_with_context_body_le.
  - apply outcome_le_fmap, _sequence_from_glyph_names_body_le.
  - apply outcome_le_refl.
Qed.

End Monotone.

Lemma input_from_name_le_S self fuel name features pad :
  outcome_le (input_from_name self fuel name features pad)
             (input_from_name self (S fuel) name features pad).
Proof.
  revert name features pad.
  induction fuel as [|fuel IH]; intros name features pad; [by left|].
  change (outcome_le
    (input_from_name_body self
       (fun g f => input_from_name self fuel g f false) name features pad)
    (input_from_name_body self
       (fun g f => input_from_name self (S fuel) g f false) name features pad)).
  apply input_from_name_body_le. intros glyph features'. apply IH.
Qed.

Lemma input_from_name_le self fuel fuel' name features pad :
  (fuel ≤ fuel')%nat →
  outcome_le (input_from_name self fuel name features pad)
             (input_from_name self fuel' name features pad).
Proof.
  induction 1 as [|fuel' _ IH]; [apply outcome_le_refl|].
  destruct IH as [->| ->]; [by left|apply input_from_name_le_S].
Qed.

Lemma input_from_name_more_fuel self fuel fuel' name features pad o :
  input_from_name self fuel name features pad = o → determined o →
  (fuel ≤ fuel')%nat →
  input_from_name self fuel' name features pad = o.
Proof.
  intros <- Hd Hle.
  by apply outcome_le_determined; [apply input_from_name_le|].
Qed.

Lemma input_from_name_agree self fuel1 fuel2 name features pad o1 o2 :
  input_from_name self fuel1 name features pad = o1 →
  input_from_name self fuel2 name features pad = o2 →
  determined o1 → determined o2 → o1 = o2.
Proof.
  intros H1 H2 Hd1 Hd2.
  destruct (Nat.le_ge_cases fuel1 fuel2) as [Hle|Hle].
  - rewrite <- H2. symmetry. by eapply input_from_name_more_fuel.
  - rewrite <- H1. by eapply input_from_name_more_fuel.
Qed.

(** An outcome reached with some fuel excludes every other returned value. *)
Lemma input_from_name_excludes self fuel name features pad o o' :
  input_from_name self fuel name features pad = o → determined o →
  determined o' → o ≠ o' →
  ∀ fuel', input_from_name self fuel' name features pad ≠ o'.
Proof.
  intros Ho Hd Hd' Hne fuel' Ho'. apply Hne.
  by eapply input_from_name_agree.
Qed.

(** ** The recursion, one level at a time *)

(** Unfolding of one level of the recursion. *)
Lemma input_from_name_S self fuel name features pad :
  input_from_name self (S fuel) name features pad =
    match reverse_cmap self !! name with
    | Some v =>
        text ← unichr v;
        Return (Some (features, if pad then [SPACE; SPACE] ++ text else text))
    | None =>
        match GSUB (font self) with
        | None => Return None
        | Some gsub =>
            match LookupList gsub with
            | None => Return None
            | Some lookups =>
                match first_rule lookups name with
                | Some (SingleRule glyph lookup_index) =>
                    _input_with_context self fuel gsub glyph lookup_index features
                | Some (LigatureRule glyphs) =>
                    Some <$> _sequence_from_glyph_names self fuel glyphs features
                | None => Return None
                end
            end
        end
    end.
Proof.
  change (input_from_name self (S fuel) name features pad)
    with (input_from_name_body self
            (fun g f => input_from_name self fuel g f false) name features pad).
  rewrite input_from_name_body_eq.
  destruct (reverse_cmap self !! name); [done|].
  destruct (GSUB (font self)) as [gsub|]; [|done].
  destruct (LookupList gsub) as [lookups|]; [|done].
  by destruct (first_rule lookups name) as [[glyph k|glyphs]|].
Qed.

Lemma _input_with_context_eq self fuel gsub glyph lookup_index features :
  _input_with_context self fuel gsub glyph lookup_index features =
    match activating_feature gsub lookup_index with
    | Some tag => input_from_name self fuel glyph (features ++ [tag]) false
    | None =>
        match LookupList gsub with
        | None => Raise AttributeError
        | Some lookups =>
            match first_chain lookups lookup_index with
            | Some st =>
                glyphs ← context_glyphs st glyph;
                Some <$> _sequence_from_glyph_names self fuel glyphs features
            | None => Raise (ValueError_lookup lookup_index)
            end
        end
    end.
Proof. unfold _input_with_context. by rewrite _input_with_context_body_eq. Qed.

Lemma input_from_name_no_rule self fuel name features pad gsub lookups :
  reverse_cmap self !! name = None →
  GSUB (font self) = Some gsub → LookupList gsub = Some lookups →
  first_rule lookups name = None →
  input_from_name self (S fuel) name features pad = Return None.
Proof.
  intros Hname Hgsub Hl Hrule.
  by rewrite input_from_name_S, Hname, Hgsub, Hl, Hrule.
Qed.

Lemma input_from_name_direct self fuel glyph features pad text :
  text_of self glyph = Some text →
  input_from_name self (S fuel) glyph features pad =
    Return (Some (features, if pad then [SPACE; SPACE] ++ text else text)).
Proof.
  unfold text_of. rewrite input_from_name_S.
  destruct (reverse_cmap self !! glyph) as [v|]; [|done].
  destruct (unichr v); [|done..]. by intros [= ->].
Qed.

(** ** What the scans find, in terms of the tables *)

Lemma activating_feature_None gsub k :
  activating_feature gsub k = None ↔ ∀ tag, ¬ activated_by gsub k tag.
Proof.
  unfold activating_feature. rewrite for_each_None. split.
  - intros H tag (feature & Hin & _ & Hk). specialize (H feature Hin).
    by rewrite bool_decide_eq_true_2 in H.
  - intros H feature Hin. case_bool_decide as Hk; [|done].
    destruct (H (FeatureTag feature)). by exists feature.
Qed.

Lemma activating_feature_Some gsub k tag :
  activating_feature gsub k = Some tag → activated_by gsub k tag.
Proof.
  intros (feature & Hin & Hb)%for_each_Some.
  case_bool_decide as Hk; [|done]. injection Hb as <-. by exists feature.
Qed.

Lemma first_chain_None lookups k :
  first_chain lookups k = None ↔
  ∀ st, chain_targets lookups st k →
        LookAheadCoverage st = [] ∧ BacktrackCoverage st = [].
Proof.
  split.
  - intros H st (sts & sub_lookup & Hin & Hst & Hsub & Hk).
    unfold first_chain in H. rewrite for_each_None in H.
    specialize (H _ Hin). simpl in H. rewrite for_each_None in H.
    specialize (H _ Hst). simpl in H. rewrite for_each_None in H.
    specialize (H _ Hsub). simpl in H.
    rewrite bool_decide_eq_false_2 in H by (by intros []).
    destruct (LookAheadCoverage st); [|done].
    by destruct (BacktrackCoverage st).
  - intros H. apply for_each_None. intros [sts|sts|sts|] Hin; try done.
    apply for_each_None. intros st Hst.
    apply for_each_None. intros sub_lookup Hsub.
    case_bool_decide as Hk; [done|].
    destruct (H st) as [-> ->]; [|done].
    exists sts, sub_lookup. repeat split; try done;
      by destruct (decide (LookupListIndex sub_lookup = k)).
Qed.

Lemma first_chain_Some lookups k st :
  first_chain lookups k = Some st →
  chain_targets lookups st k ∧
  ¬ (LookAheadCoverage st = [] ∧ BacktrackCoverage st = []).
Proof.
  intros (lookup & Hin & Hb)%for_each_Some.
  destruct lookup as [sts|sts|sts|]; try done.
  apply for_each_Some in Hb as (st' & Hst & Hb).
  apply for_each_Some in Hb as (sub_lookup & Hsub & Hb).
  case_bool_decide as Hk; [done|].
  assert (LookupListIndex sub_lookup = k) as Hk'
    by by destruct (decide (LookupListIndex sub_lookup = k)).
  destruct (LookAheadCoverage st') as [|c cs] eqn:Ha;
    [destruct (BacktrackCoverage st') as [|c cs] eqn:Hbk; [done|]|];
    injection Hb as <-; (split; [by exists sts, sub_lookup|]);
    rewrite ?Ha, ?Hbk; by intros [??].
Qed.

Lemma first_rule_sound lookups name r :
  first_rule lookups name = Some r →
  match r with
  | SingleRule glyph k => single_subst_at lookups k glyph name
  | LigatureRule components => ligature_in lookups components name
  end.
Proof.
  intros ([k lookup] & Hin & Hb)%for_each_Some.
  apply elem_of_enumerate_from in Hin as (j & -> & Hj). simpl in Hj.
  destruct lookup as [sts|sts|sts|]; try done.
  - apply for_each_Some in Hb as (st & Hst & Hb).
    apply for_each_Some in Hb as ([glyph subst] & Hm & Hb).
    case_bool_decide as Hs; [|done]. injection Hb as <-. subst subst.
    by exists sts, st.
  - apply for_each_Some in Hb as (st & Hst & Hb).
    apply for_each_Some in Hb as ([prefix ligs] & Hl & Hb).
    apply for_each_Some in Hb as (ligature & Hlig & Hb).
    case_bool_decide as Hs; [|done]. injection Hb as <-.
    exists sts, st, prefix, ligs, ligature. repeat split; try done.
    by eapply list_elem_of_lookup_2.
Qed.

Lemma elem_of_enumerate_from_2 {A} (i j : nat) (x : A) (l : list A) :
  l !! j = Some x → ((i + j)%nat, x) ∈ enumerate_from i l.
Proof.
  revert i j. induction l as [|y l IH]; intros i j; [done|].
  destruct j as [|j]; simpl.
  - intros [= ->]. rewrite Nat.add_0_r. by left.
  - intros H. right. replace (i + S j)%nat with (S i + j)%nat by lia. by apply IH.
Qed.

Lemma first_rule_None lookups name :
  first_rule lookups name = None ↔ no_rule_produces lookups name.
Proof.
  split.
  - intros H. unfold first_rule in H. rewrite for_each_None in H. split.
    + intros k a (sts & st & Hk & Hst & Hm).
      specialize (H (k, SingleSubstLookup sts)
                    (elem_of_enumerate_from_2 0 k _ _ Hk)).
      simpl in H. rewrite for_each_None in H.
      specialize (H _ Hst). simpl in H. rewrite for_each_None in H.
      specialize (H _ Hm). simpl in H.
      by rewrite bool_decide_eq_true_2 in H.
    + intros components (sts & st & prefix & ligs & ligature &
                         Hin & Hst & Hl & Hlig & Hname & _).
      apply list_elem_of_lookup_1 in Hin as [k Hk].
      specialize (H (k, LigatureSubstLookup sts)
                    (elem_of_enumerate_from_2 0 k _ _ Hk)).
      simpl in H. rewrite for_each_None in H.
      specialize (H _ Hst). simpl in H. rewrite for_each_None in H.
      specialize (H _ Hl). simpl in H. rewrite for_each_None in H.
      specialize (H _ Hlig). simpl in H.
      by rewrite bool_decide_eq_true_2 in H.
  - intros [Hs Hl]. destruct (first_rule lookups name) as [r|] eqn:Hr; [|done].
    apply first_rule_sound in Hr. destruct r as [glyph k|components].
    + by destruct (Hs k glyph).
    + by destruct (Hl components).
Qed.

(** ** The scans stop at the first item *)

(** A Type 1 entry [a -> name] is the rule found when no lookup before
    its own produces [name], nor any subtable before its own in the
    lookup, nor any item before it in the mapping. *)
Lemma first_rule_first_single pre sts_pre st sts_post post m_pre a m_post name :
  no_rule_produces pre name →
  (∀ st' a', st' ∈ sts_pre → (a', name) ∉ mapping st') →
  (∀ a', (a', name) ∉ m_pre) →
  mapping st = m_pre ++ (a, name) :: m_post →
  first_rule (pre ++ SingleSubstLookup (sts_pre ++ st :: sts_post) :: post) name =
    Some (SingleRule a (length pre)).
Proof.
  intros Hpre Hsts Hm Hst. apply first_rule_None in Hpre.
  unfold first_rule, enumerate in *.
  rewrite enumerate_from_app, for_each_app, Hpre. simpl.
  rewrite for_each_app.
  replace (for_each sts_pre _) with (@None rule).
  - simpl. rewrite Hst, for_each_app.
    replace (for_each m_pre _) with (@None rule).
    + simpl. by rewrite bool_decide_eq_true_2.
    + symmetry. apply for_each_None. intros [a' subst] Hin.
      case_bool_decide as Hs; [|done]. subst subst. by destruct (Hm a').
  - symmetry. apply for_each_None. intros st' Hin.
    apply for_each_None. intros [a' subst] Hin'.
    case_bool_decide as Hs; [|done]. subst subst. by destruct (Hsts st' a').
Qed.

(** A ligature record of result [name] is the rule found when no lookup
    before its own produces [name], nor any subtable before its own, nor
    any ligature listed before it in the subtable. *)
Lemma first_rule_first_ligature pre sts_pre st sts_post post
    l_pre prefix ligs_pre ligature ligs_post l_post name :
  no_rule_produces pre name →
  (∀ st' p ligs lig, st' ∈ sts_pre → (p, ligs) ∈ ligatures st' → lig ∈ ligs →
                     LigGlyph lig ≠ name) →
  (∀ p ligs lig, (p, ligs) ∈ l_pre → lig ∈ ligs → LigGlyph lig ≠ name) →
  (∀ lig, lig ∈ ligs_pre → LigGlyph lig ≠ name) →
  ligatures st = l_pre ++ (prefix, ligs_pre ++ ligature :: ligs_post) :: l_post →
  LigGlyph ligature = name →
  first_rule (pre ++ LigatureSubstLookup (sts_pre ++ st :: sts_post) :: post) name =
    Some (LigatureRule (prefix :: Component ligature)).
Proof.
  intros Hpre Hsts Hl Hligs Hst Hname. apply first_rule_None in Hpre.
  unfold first_rule, enumerate in *.
  rewrite enumerate_from_app, for_each_app, Hpre. simpl.
  rewrite for_each_app.
  replace (for_each sts_pre _) with (@None rule).
  - simpl. rewrite Hst, for_each_app.
    replace (for_each l_pre _) with (@None rule).
    + simpl. rewrite for_each_app.
      replace (for_each ligs_pre _) with (@None rule).
      * simpl. by rewrite bool_decide_eq_true_2.
      * symmetry. apply for_each_None. intros lig Hin.
        case_bool_decide as Hs; [|done]. by destruct (Hligs lig).
    + symmetry. apply for_each_None. intros [p ligs] Hin.
      apply for_each_None. intros lig Hin'.
      case_bool_decide as Hs; [|done]. by destruct (Hl p ligs lig).
  - symmetry. apply for_each_None. intros st' Hin.
    apply for_each_None. intros [p ligs] Hin'.
    apply for_each_None. intros lig Hin''.
    case_bool_decide as Hs; [|done]. by destruct (Hsts st' p ligs lig).
Qed.

(** A Type 6 subtable with a record for [k] and some context is the
    one found when every such subtable before it declares no context. *)
Lemma first_chain_first pre sts_pre st sts_post post k :
  first_chain pre k = None →
  first_chain [ChainContextSubstLookup sts_pre] k = None →
  (∃ sub_lookup, sub_lookup ∈ SubstLookupRecord st ∧ LookupListIndex sub_lookup = k) →
  ¬ (LookAheadCoverage st = [] ∧ BacktrackCoverage st = []) →
  first_chain (pre ++ ChainContextSubstLookup (sts_pre ++ st :: sts_post) :: post) k =
    Some st.
Proof.
  intros Hpre Hsts (sub_lookup & Hin & Hk) Hctx.
  unfold first_chain in *. rewrite for_each_app, Hpre. simpl in *.
  rewrite for_each_app.
  destruct (for_each sts_pre _); [done|]. simpl.
  rewrite (for_each_const _ _ st); [done| |].
  - intros r _. destruct (bool_decide _); [by left|].
    destruct (LookAheadCoverage st); [|by right].
    destruct (BacktrackCoverage st); [by left|by right].
  - exists sub_lookup. split; [done|].
    rewrite bool_decide_eq_false_2 by (by intros []).
    destruct (LookAheadCoverage st); [|done].
    destruct (BacktrackCoverage st); [|done]. by destruct Hctx.
Qed.

(** ** The sequence assembler *)

Section Sequence.

Variable resolve : string → list string → outcome (option input).

Lemma sequence_loop_acc glyphs features text :
  sequence_loop resolve glyphs features text =
    '(features', text') ← sequence_loop resolve glyphs features [];
    Return (features', text ++ text').
Proof.
  revert features text.
  induction glyphs as [|glyph glyphs IH]; intros features text; simpl.
  - by rewrite app_nil_r.
  - destruct (resolve glyph features) as [[[f1 t1]|]| |]; simpl; try done.
    rewrite (IH f1 (text ++ [t1])), (IH f1 [t1]).
    destruct (sequence_loop resolve glyphs f1 []) as [[f t]| |]; simpl; try done.
    by rewrite <- (assoc_L (++)).
Qed.

Lemma _sequence_from_glyph_names_body_nil features :
  _sequence_from_glyph_names_body resolve [] features = Return (features, []).
Proof. done. Qed.

Lemma _sequence_from_glyph_names_body_cons glyph glyphs features :
  _sequence_from_glyph_names_body resolve (glyph :: glyphs) features =
    r ← resolve glyph features;
    match r with
    | None => Raise TypeError
    | Some (features1, text1) =>
        '(features', text') ← _sequence_from_glyph_names_body resolve glyphs features1;
        Return (features', text1 ++ text')
    end.
Proof.
  unfold _sequence_from_glyph_names_body. simpl.
  destruct (resolve glyph features) as [[[f1 t1]|]| |]; simpl; try done.
  rewrite sequence_loop_acc.
  by destruct (sequence_loop resolve glyphs f1 []) as [[f t]| |].
Qed.

Lemma _sequence_from_glyph_names_body_app glyphs1 glyphs2 features :
  _sequence_from_glyph_names_body resolve (glyphs1 ++ glyphs2) features =
    '(features1, text1) ← _sequence_from_glyph_names_body resolve glyphs1 features;
    '(features', text') ← _sequence_from_glyph_names_body resolve glyphs2 features1;
    Return (features', text1 ++ text').
Proof.
  revert features.
  induction glyphs1 as [|glyph glyphs1 IH]; intros features.
  - rewrite _sequence_from_glyph_names_body_nil. simpl.
    by destruct (_sequence_from_glyph_names_body resolve glyphs2 features)
      as [[f t]| |].
  - simpl. rewrite !_sequence_from_glyph_names_body_cons.
    destruct (resolve glyph features) as [[[f1 t1]|]| |]; simpl; try done.
    rewrite IH.
    destruct (_sequence_from_glyph_names_body resolve glyphs1 f1)
      as [[f2 t2]| |]; simpl; try done.
    destruct (_sequence_from_glyph_names_body resolve glyphs2 f2)
      as [[f3 t3]| |]; simpl; try done.
    by rewrite app_assoc.
Qed.

End Sequence.

(** A sequence of glyphs that all have a direct hit. *)
Lemma _sequence_from_glyph_names_direct self fuel glyphs texts features :
  Forall2 (fun glyph text => text_of self glyph = Some text) glyphs texts →
  _sequence_from_glyph_names self (S fuel) glyphs features =
    Return (features, concat texts).
Proof.
  unfold _sequence_from_glyph_names.
  induction 1 as [|glyph text glyphs texts Hg _ IH]; [done|].
  rewrite _sequence_from_glyph_names_body_cons.
  rewrite (input_from_name_direct _ _ _ _ _ _ Hg), outcome_bind_Return.
  by rewrite IH.
Qed.

(** ** The batch driver *)

Lemma all_inputs_loop_app self fuel names1 names2 inputs :
  all_inputs_loop self fuel (names1 ++ names2) inputs =
    inputs' ← all_inputs_loop self fuel names1 inputs;
    all_inputs_loop self fuel names2 inputs'.
Proof.
  revert inputs. induction names1 as [|name names1 IH]; intros inputs; [done|].
  simpl.
  destruct (input_from_name self fuel name [] _) as [[cur|]| |]; simpl; try done.
Qed.

(** ** The reverse character map *)

Lemma build_reverse_cmap_lookup font glyph v :
  build_reverse_cmap font !! glyph = Some v → (v, glyph) ∈ get_largest_cmap font.
Proof.
  unfold build_reverse_cmap.
  assert (∀ items (m : gmap string Z),
    foldl (fun (m : gmap string Z) '(v, n) => <[n := v]> m) m items !! glyph = Some v →
    m !! glyph = Some v ∨ (v, glyph) ∈ items) as Hgen.
  { induction items as [|[v' n] items IH]; intros m; simpl; [by left|].
    intros [Hm|Hin]%IH.
    - destruct (decide (n = glyph)) as [->|Hne].
      + rewrite lookup_insert_eq in Hm. injection Hm as ->. right. by left.
      + rewrite lookup_insert_ne in Hm by done. by left.
    - right. by right. }
  intros [Hm|Hin]%Hgen; [|done]. by rewrite lookup_empty in Hm.
Qed.

(** ** Chaining rules *)

(** Removing a Type 6 subtable that declares no context changes nothing
    to the scan for a chaining rule. *)
Lemma first_chain_skip pre spre st spost post k :
  LookAheadCoverage st = [] → BacktrackCoverage st = [] →
  first_chain (pre ++ ChainContextSubstLookup (spre ++ st :: spost) :: post) k =
  first_chain (pre ++ ChainContextSubstLookup (spre ++ spost) :: post) k.
Proof.
  intros Ha Hb. unfold first_chain.
  rewrite !for_each_app. f_equal. simpl.
  rewrite !for_each_app. simpl. rewrite Ha, Hb.
  replace (for_each (SubstLookupRecord st) _) with (@None ChainContextSubst); [done|].
  symmetry. apply for_each_None. intros sub_lookup _. by destruct (bool_decide _).
Qed.

Lemma _input_with_context_chain self fuel gsub lookups glyph k features st :
  LookupList gsub = Some lookups →
  activating_feature gsub k = None →
  first_chain lookups k = Some st →
  _input_with_context self fuel gsub glyph k features =
    glyphs ← context_glyphs st glyph;
    Some <$> _sequence_from_glyph_names self fuel glyphs features.
Proof. intros Hl Hfeat Hchain. by rewrite _input_with_context_eq, Hfeat, Hl, Hchain. Qed.

(** What [all_inputs] has collected stays in its result. *)
Lemma all_inputs_loop_prefix self fuel names inputs result :
  all_inputs_loop self fuel names inputs = Return result →
  ∃ more, result = inputs ++ more.
Proof.
  revert inputs. induction names as [|name names IH]; intros inputs; simpl.
  - intros [= <-]. exists []. by rewrite app_nil_r.
  - destruct (input_from_name self fuel name [] _) as [[cur|]| |]; simpl; try done.
    + intros (more & ->)%IH. exists (cur :: more). by rewrite <- app_assoc.
    + apply IH.
Qed.

(** ** Termination *)

Lemma context_glyphs_determined st glyph : determined (context_glyphs st glyph).
Proof.
  unfold context_glyphs.
  destruct (LookAheadCoverage st) as [|c cs];
    [destruct (BacktrackCoverage st) as [|c cs]; [done|]|];
    by destruct (glyphs c).
Qed.

Lemma context_glyphs_Return st glyph gs h :
  context_glyphs st glyph = Return gs → h ∈ gs → h = glyph ∨ context_glyph st h.
Proof.
  unfold context_glyphs, context_glyph.
  destruct (LookAheadCoverage st) as [|c cs] eqn:Ha.
  - destruct (BacktrackCoverage st) as [|c cs] eqn:Hb; [done|].
    destruct (glyphs c) as [|x xs] eqn:Hx; [done|].
    intros [= <-] [->|[->|[]%elem_of_nil]%elem_of_cons]%elem_of_cons; [|by left].
    right. right. by exists c, cs, xs.
  - destruct (glyphs c) as [|x xs] eqn:Hx; [done|].
    intros [= <-] [->|[->|[]%elem_of_nil]%elem_of_cons]%elem_of_cons; [by left|].
    right. left. by exists c, cs, xs.
Qed.

Lemma _sequence_from_glyph_names_le self fuel fuel' glyphs features :
  (fuel ≤ fuel')%nat →
  outcome_le (_sequence_from_glyph_names self fuel glyphs features)
             (_sequence_from_glyph_names self fuel' glyphs features).
Proof.
  intros Hle. apply _sequence_from_glyph_names_body_le.
  intros glyph features'. by apply input_from_name_le.
Qed.

Lemma _sequence_from_glyph_names_terminates self glyphs :
  (∀ h, h ∈ glyphs → terminates self h) →
  ∀ features, ∃ fuel,
    determined (_sequence_from_glyph_names self fuel glyphs features).
Proof.
  induction glyphs as [|glyph glyphs IH]; intros Hall features.
  - by exists 0%nat.
  - destruct (Hall glyph (list_elem_of_here _ _) features false) as [n1 Hn1].
    destruct (input_from_name self n1 glyph features false)
      as [[[features1 text1]|]| |] eqn:Hr; [| | |done].
    + destruct (IH (fun h Hh => Hall h (list_elem_of_further _ _ _ Hh)) features1)
        as [n2 Hn2].
      exists (n1 `max` n2)%nat.
      pose proof (_sequence_from_glyph_names_le self n2 (n1 `max` n2) glyphs features1
                    (Nat.le_max_r _ _)) as Hle.
      apply outcome_le_determined in Hle; [|done].
      unfold _sequence_from_glyph_names in *.
      rewrite _sequence_from_glyph_names_body_cons.
      rewrite (input_from_name_more_fuel self n1 _ _ _ _ _ Hr) by (done || lia).
      rewrite outcome_bind_Return, Hle.
      by destruct (_sequence_from_glyph_names_body _ glyphs features1) as [[f t]| |].
    + exists n1. unfold _sequence_from_glyph_names.
      by rewrite _sequence_from_glyph_names_body_cons, Hr.
    + exists n1. unfold _sequence_from_glyph_names.
      by rewrite _sequence_from_glyph_names_body_cons, Hr.
Qed.

Lemma lookups_of_eq self gsub lookups :
  GSUB (font self) = Some gsub → LookupList gsub = Some lookups →
  lookups_of self = lookups.
Proof. intros Hgsub Hl. unfold lookups_of. by rewrite Hgsub, Hl. Qed.

(** One step of the argument: a glyph terminates when every glyph it
    is resolved from does. *)
Lemma terminates_step self g :
  (∀ h, resolved_for self h g → terminates self h) → terminates self g.
Proof.
  intros IH features pad.
  destruct (reverse_cmap self !! g) as [v|] eqn:Hg.
  { exists 1%nat. rewrite input_from_name_S, Hg. unfold unichr.
    by destruct (_ && _). }
  destruct (GSUB (font self)) as [gsub|] eqn:Hgsub;
    [|exists 1%nat; by rewrite input_from_name_S, Hg, Hgsub].
  destruct (LookupList gsub) as [lookups|] eqn:Hl;
    [|exists 1%nat; by rewrite input_from_name_S, Hg, Hgsub, Hl].
  pose proof (lookups_of_eq self gsub lookups Hgsub Hl) as Hlookups.
  destruct (first_rule lookups g) as [[a k|components]|] eqn:Hrule;
    [| |exists 1%nat; by rewrite input_from_name_S, Hg, Hgsub, Hl, Hrule].
  - pose proof (first_rule_sound _ _ _ Hrule) as Hsingle. simpl in Hsingle.
    assert (terminates self a) as Ha.
    { apply IH. split; [done|]. rewrite Hlookups. by eapply depends_single. }
    destruct (activating_feature gsub k) as [tag|] eqn:Htag.
    { destruct (Ha (features ++ [tag]) false) as [n Hn]. exists (S n).
      by rewrite input_from_name_S, Hg, Hgsub, Hl, Hrule,
                 _input_with_context_eq, Htag. }
    destruct (first_chain lookups k) as [st|] eqn:Hchain; last first.
    { exists 1%nat.
      by rewrite input_from_name_S, Hg, Hgsub, Hl, Hrule,
                 _input_with_context_eq, Htag, Hl, Hchain. }
    destruct (context_glyphs st a) as [gs|e|] eqn:Hctx.
    + destruct (_sequence_from_glyph_names_terminates self gs) with features
        as [n Hn].
      { intros h Hh.
        destruct (context_glyphs_Return _ _ _ _ Hctx Hh) as [->|Hx]; [done|].
        apply IH. split; [done|]. rewrite Hlookups.
        eapply depends_context; [done| |done].
        by apply first_chain_Some in Hchain as [? _]. }
      exists (S n).
      rewrite input_from_name_S, Hg, Hgsub, Hl, Hrule.
      rewrite (_input_with_context_chain _ _ _ _ _ _ _ _ Hl Htag Hchain), Hctx.
      rewrite outcome_bind_Return.
      by destruct (_sequence_from_glyph_names self n gs features).
    + exists 1%nat.
      rewrite input_from_name_S, Hg, Hgsub, Hl, Hrule.
      by rewrite (_input_with_context_chain _ _ _ _ _ _ _ _ Hl Htag Hchain), Hctx.
    + by destruct (context_glyphs_determined st a).
  - pose proof (first_rule_sound _ _ _ Hrule) as Hlig. simpl in Hlig.
    destruct (_sequence_from_glyph_names_terminates self components) with features
      as [n Hn].
    { intros h Hh. apply IH. split; [done|]. rewrite Hlookups.
      by eapply depends_ligature. }
    exists (S n). rewrite input_from_name_S, Hg, Hgsub, Hl, Hrule.
    by destruct (_sequence_from_glyph_names self n components features).
Qed.

(** The self-referring rule: each call asks for the same glyph again. *)
Lemma input_from_name_cycle self gsub lookups g k tag :
  GSUB (font self) = Some gsub → LookupList gsub = Some lookups →
  reverse_cmap self !! g = None →
  first_rule lookups g = Some (SingleRule g k) →
  activating_feature gsub k = Some tag →
  ∀ fuel features pad, input_from_name self fuel g features pad = OutOfFuel.
Proof.
  intros Hgsub Hl Hg Hrule Htag fuel.
  induction fuel as [|fuel IH]; intros features pad; [done|].
  rewrite input_from_name_S, Hg, Hgsub, Hl, Hrule, _input_with_context_eq, Htag.
  apply IH.
Qed.

Lemma not_well_founded_loop {A} (R : A → A → Prop) (x : A) :
  R x x → ¬ well_founded R.
Proof.
  intros Hx Hwf. induction (Hwf x) as [x _ IH]. by apply (IH x).
Qed.

(** In [font_single] the only edge goes from "B" to "A", which is in
    the Unicode map. *)
Lemma font_single_well_founded : well_founded (resolved_for (__init__ font_single)).
Proof.
  assert (∀ g h, depends (lookups_of (__init__ font_single)) g h → h = "A") as Hdep.
  { intros g h Hd. change (lookups_of (__init__ font_single)) with
      [SingleSubstLookup [mkSingleSubst [("A", "B")]]] in Hd.
    destruct Hd as [k a Hs|components h Hl _|k a st x _ Hc _].
    - destruct Hs as (sts & st & Hk & Hst & Hm).
      destruct k as [|k]; [|done]. injection Hk as <-.
      apply list_elem_of_singleton in Hst as ->.
      apply list_elem_of_singleton in Hm. by injection Hm.
    - destruct Hl as (sts & st & prefix & ligs & ligature & Hin & _).
      by apply list_elem_of_singleton in Hin.
    - destruct Hc as (sts & sub_lookup & Hin & _).
      by apply list_elem_of_singleton in Hin. }
  intros g. constructor. intros h [_ Hh]. apply Hdep in Hh as ->.
  constructor. intros h' [Hnone _]. done.
Qed.

(** ** With tuples, the store is only carried along *)

Lemma for_each_Forall2 {A R1 R2} (R : R1 → R2 → Prop) (l : list A)
    (body1 : A → option R1) (body2 : A → option R2) :
  (∀ x, option_Forall2 R (body1 x) (body2 x)) →
  option_Forall2 R (for_each l body1) (for_each l body2).
Proof.
  intros Hbody. induction l as [|x l IH]; simpl; [constructor|].
  destruct (Hbody x); [by constructor|done].
Qed.

Section OnTuples.

Variable self : HbInputGenerator.
Variable resolve_st : string → features_object → stateful (option input_object).
Variable resolve : string → list string → outcome (option input).
Hypothesis resolve_on_tuples : ∀ glyph tags,
  on_tuples (resolve_st glyph (FeaturesTuple tags)) (resolve glyph tags).

Lemma sequence_loop_st_tuple rest tags text h :
  sequence_loop_st resolve_st rest (FeaturesTuple tags) text h =
    ((fun '(features, text) => (FeaturesTuple features, text))
       <$> sequence_loop resolve rest tags text, h).
Proof.
  revert tags text h.
  induction rest as [|glyph rest IH]; intros tags text h; simpl; [done|].
  unfold bindS. rewrite resolve_on_tuples.
  destruct (resolve glyph tags) as [[[tags1 text1]|]| |]; simpl;
    first [done|apply IH].
Qed.

Lemma _sequence_from_glyph_names_body_st_tuple rest tags h :
  _sequence_from_glyph_names_body_st resolve_st rest (FeaturesTuple tags) h =
    ((fun '(features, text) => (FeaturesTuple features, text))
       <$> _sequence_from_glyph_names_body resolve rest tags, h).
Proof.
  unfold _sequence_from_glyph_names_body_st, _sequence_from_glyph_names_body, bindS.
  rewrite sequence_loop_st_tuple.
  by destruct (sequence_loop resolve rest tags []) as [[tags1 text1]| |].
Qed.

Lemma sequence_result_on_tuples rest tags :
  on_tuples
    (bindS (_sequence_from_glyph_names_body_st resolve_st rest (FeaturesTuple tags))
           (fun r => retS (Some r)))
    (Some <$> _sequence_from_glyph_names_body resolve rest tags).
Proof.
  intros h. unfold bindS. rewrite _sequence_from_glyph_names_body_st_tuple.
  by destruct (_sequence_from_glyph_names_body resolve rest tags) as [[tags1 text1]| |].
Qed.

Lemma _input_with_context_body_st_tuple gsub glyph lookup_index tags :
  on_tuples
    (_input_with_context_body_st resolve_st gsub glyph lookup_index (FeaturesTuple tags))
    (_input_with_context_body resolve gsub glyph lookup_index tags).
Proof.
  unfold _input_with_context_body_st, _input_with_context_body.
  lazymatch goal with
  | |- on_tuples (match ?a with _ => _ end) (match ?b with _ => _ end) =>
      assert (option_Forall2 on_tuples a b) as Hfeature
  end.
  { apply for_each_Forall2. intros feature.
    destruct (bool_decide _); constructor.
    intros h. unfold bindS, features_iadd. apply resolve_on_tuples. }
  destruct Hfeature as [m o Hmo|]; [done|].
  destruct (LookupList gsub) as [lookups|]; [|done].
  lazymatch goal with
  | |- on_tuples (match ?a with _ => _ end) (match ?b with _ => _ end) =>
      assert (option_Forall2 on_tuples a b) as Hchain
  end.
  { apply for_each_Forall2. intros [sts|sts|sts|]; try constructor.
    apply for_each_Forall2. intros st.
    apply for_each_Forall2. intros sub_lookup.
    destruct (bool_decide _); [constructor|].
    destruct (LookAheadCoverage st) as [|c cs];
      [destruct (BacktrackCoverage st) as [|c cs]; [constructor|]|];
      constructor; (destruct (glyphs c); [done|apply sequence_result_on_tuples]). }
  by destruct Hchain as [m o Hmo|].
Qed.

Lemma input_from_name_body_st_tuple name tags pad :
  on_tuples (input_from_name_body_st self resolve_st name (FeaturesTuple tags) pad)
            (input_from_name_body self resolve name tags pad).
Proof.
  unfold input_from_name_body_st, input_from_name_body.
  destruct (reverse_cmap self !! name) as [v|].
  { intros h. by destruct (unichr v). }
  destruct (GSUB (font self)) as [gsub|]; [|done].
  destruct (LookupList gsub) as [lookups|]; [|done].
  lazymatch goal with
  | |- on_tuples (match ?a with _ => _ end) (match ?b with _ => _ end) =>
      assert (option_Forall2 on_tuples a b) as Hrule
  end.
  { apply for_each_Forall2. intros [lookup_index [sts|sts|sts|]]; try constructor.
    - apply for_each_Forall2. intros st.
      apply for_each_Forall2. intros [glyph subst].
      destruct (bool_decide _); constructor.
      apply _input_with_context_body_st_tuple.
    - apply for_each_Forall2. intros st.
      apply for_each_Forall2. intros [prefix ligs].
      apply for_each_Forall2. intros ligature.
      destruct (bool_decide _); constructor.
      apply sequence_result_on_tuples. }
  by destruct Hrule as [m o Hmo|].
Qed.

End OnTuples.

(** On a tuple, the code with a store does what the tuple-only
    functions say and leaves every list of the caller alone. *)
Lemma input_from_name_st_tuple self fuel name tags pad :
  on_tuples (input_from_name_st self fuel name (FeaturesTuple tags) pad)
            (input_from_name self fuel name tags pad).
Proof.
  revert name tags pad.
  induction fuel as [|fuel IH]; intros name tags pad; [done|].
  apply (input_from_name_body_st_tuple self
           (fun glyph features => input_from_name_st self fuel glyph features false)
           (fun glyph features => input_from_name self fuel glyph features false)).
  intros glyph tags'. apply IH.
Qed.

(** * The claims of the specification *)

(** C1, as stated, fails: in [font_two_rules] a Type 1 subtable of
    lookup 1 maps "A" to "B", "B" has no direct mapping, "A" has one,
    and lookup 1 is listed by the feature record tagged "test"; yet
    [input_from_name] answers with the rule of lookup 0, which comes
    first in the scan. *)
Lemma C1_counterexample :
  single_subst_at [SingleSubstLookup [mkSingleSubst [("X", "B")]];
                   SingleSubstLookup [mkSingleSubst [("A", "B")]]] 1 "A" "B" ∧
  reverse_cmap (__init__ font_two_rules) !! "B" = None ∧
  text_of (__init__ font_two_rules) "A" = Some [65] ∧
  activated_by gsub_two_rules 1 "test" ∧
  input_from_name (__init__ font_two_rules) 2 "B" [] false =
    Return (Some (["aaaa"], [88])) ∧
  ∀ fuel, input_from_name (__init__ font_two_rules) fuel "B" [] false ≠
            Return (Some ([] ++ ["test"], [65])).
Proof.
  split; [|split; [|split; [|split; [|split]]]].
  - exists [mkSingleSubst [("A", "B")]], (mkSingleSubst [("A", "B")]).
    split; [done|]. split; by left.
  - reflexivity.
  - reflexivity.
  - exists (mkFeatureRecord "test" [1%nat]).
    split; [right; by left|]. split; [done|by left].
  - reflexivity.
  - by apply (input_from_name_excludes _ 2 _ _ _ (Return (Some (["aaaa"], [88])))).
Qed.

(** C1, amended. When the first rule producing [B], in the order of the
    scan (lookups, then subtables, then mapping items), is the Type 1
    entry [A -> B] of lookup [k], [B] has no direct mapping, [A] has a
    direct hit, and the first feature record listing [k] has tag [tag]
    (for instance "test"), [input_from_name] returns the features with
    [tag] appended and the text of [A]; [pad] plays no part. *)
Theorem C1_single_substitution (self : HbInputGenerator) (gsub : table_GSUB)
    (lookups : list Lookup) (k : nat) (A B tag : string) (text_A : list Z) :
  GSUB (font self) = Some gsub →
  LookupList gsub = Some lookups →
  reverse_cmap self !! B = None →
  first_rule lookups B = Some (SingleRule A k) →
  activating_feature gsub k = Some tag →
  text_of self A = Some text_A →
  ∀ fuel features pad,
    input_from_name self (S (S fuel)) B features pad =
      Return (Some (features ++ [tag], text_A)).
Proof.
  intros Hgsub Hl HB Hrule Htag HA fuel features pad.
  rewrite input_from_name_S, HB, Hgsub, Hl, Hrule.
  rewrite _input_with_context_eq, Htag.
  by rewrite (input_from_name_direct _ _ _ _ _ _ HA).
Qed.

Lemma C1_single_substitution_witness :
  input_from_name (__init__ font_single) 2 "B" [] true =
    Return (Some ([] ++ ["test"], [65])).
Proof.
  apply (C1_single_substitution (__init__ font_single) gsub_single
           [SingleSubstLookup [mkSingleSubst [("A", "B")]]] 0 "A" "B" "test" [65]);
    reflexivity.
Defined.

(** C2, as stated, fails: in [font_ligature_shadowed] a Type 4 subtable
    maps the sequence "A" "C" to "L", "L" has no direct mapping, "A" and
    "C" have one; yet [input_from_name] answers with the Type 1 rule of
    lookup 0, which comes first in the scan. *)
Lemma C2_counterexample :
  ligature_in [SingleSubstLookup [mkSingleSubst [("X", "L")]];
               LigatureSubstLookup [mkLigatureSubst [("A", [mkLigature "L" ["C"]])]]]
              ["A"; "C"] "L" ∧
  reverse_cmap (__init__ font_ligature_shadowed) !! "L" = None ∧
  text_of (__init__ font_ligature_shadowed) "A" = Some [65] ∧
  text_of (__init__ font_ligature_shadowed) "C" = Some [67] ∧
  input_from_name (__init__ font_ligature_shadowed) 2 "L" [] false =
    Return (Some (["aaaa"], [88])) ∧
  ∀ fuel, input_from_name (__init__ font_ligature_shadowed) fuel "L" [] false ≠
            Return (Some ([], [65] ++ [67])).
Proof.
  split; [|split; [|split; [|split; [|split]]]].
  - exists [mkLigatureSubst [("A", [mkLigature "L" ["C"]])]],
      (mkLigatureSubst [("A", [mkLigature "L" ["C"]])]),
      "A", [mkLigature "L" ["C"]], (mkLigature "L" ["C"]).
    split; [right; by left|]. repeat split; by left.
  - reflexivity.
  - reflexivity.
  - reflexivity.
  - reflexivity.
  - by apply (input_from_name_excludes _ 2 _ _ _ (Return (Some (["aaaa"], [88])))).
Qed.

(** C2, amended. When the first rule producing [L], in the order of the
    scan, is a Type 4 ligature record whose first component followed by
    its remaining components is [glyphs], and [L] has no direct mapping,
    [input_from_name] returns what the sequence assembler makes of
    [glyphs]: each element resolved in turn.  When every element has a
    direct hit, that is the features unchanged and the texts
    concatenated in sequence order; for [glyphs = [A; C]], the text of
    [A] followed by the text of [C]. *)
Theorem C2_ligature_substitution (self : HbInputGenerator) (gsub : table_GSUB)
    (lookups : list Lookup) (L : string) (glyphs : list string) :
  GSUB (font self) = Some gsub →
  LookupList gsub = Some lookups →
  reverse_cmap self !! L = None →
  first_rule lookups L = Some (LigatureRule glyphs) →
  ∀ fuel features pad,
    input_from_name self (S fuel) L features pad =
      Some <$> _sequence_from_glyph_names self fuel glyphs features ∧
    (∀ texts,
       Forall2 (fun glyph text => text_of self glyph = Some text) glyphs texts →
       input_from_name self (S (S fuel)) L features pad =
         Return (Some (features, concat texts))) ∧
    (∀ A C text_A text_C,
       glyphs = [A; C] → text_of self A = Some text_A → text_of self C = Some text_C →
       input_from_name self (S (S fuel)) L features pad =
         Return (Some (features, text_A ++ text_C))).
Proof.
  intros Hgsub Hl HL Hrule fuel features pad.
  assert (∀ fuel', input_from_name self (S fuel') L features pad =
                   Some <$> _sequence_from_glyph_names self fuel' glyphs features)
    as Hstep.
  { intros fuel'. by rewrite input_from_name_S, HL, Hgsub, Hl, Hrule. }
  assert (∀ texts,
    Forall2 (fun glyph text => text_of self glyph = Some text) glyphs texts →
    input_from_name self (S (S fuel)) L features pad =
      Return (Some (features, concat texts))) as Hdirect.
  { intros texts Htexts.
    by rewrite Hstep, (_sequence_from_glyph_names_direct _ _ _ _ _ Htexts). }
  split; [apply Hstep|]. split; [apply Hdirect|].
  intros A C text_A text_C -> HA HC.
  rewrite (Hdirect [text_A; text_C]); [|by repeat constructor].
  simpl. by rewrite app_nil_r.
Qed.

Lemma C2_ligature_substitution_witness :
  input_from_name (__init__ font_ligature) 1 "L" [] false =
    Some <$> _sequence_from_glyph_names (__init__ font_ligature) 0 ["A"; "C"] [] ∧
  (∀ texts,
     Forall2 (fun glyph text => text_of (__init__ font_ligature) glyph = Some text)
       ["A"; "C"] texts →
     input_from_name (__init__ font_ligature) 2 "L" [] false =
       Return (Some ([], concat texts))) ∧
  (∀ A C text_A text_C,
     ["A"; "C"] = [A; C] →
     text_of (__init__ font_ligature) A = Some text_A →
     text_of (__init__ font_ligature) C = Some text_C →
     input_from_name (__init__ font_ligature) 2 "L" [] false =
       Return (Some ([], text_A ++ text_C))).
Proof.
  apply (C2_ligature_substitution (__init__ font_ligature) gsub_ligature
           [LigatureSubstLookup [mkLigatureSubst [("A", [mkLigature "L" ["C"]])]]]
           "L" ["A"; "C"]);
    reflexivity.
Defined.

(** C3. For every glyph [g] present in the reverse character map, built
    from a well-formed forward map, [input_from_name] returns the
    features it was given and the text of a single code point [v]
    (after two spaces when [pad] is set), and the forward map sends [v]
    back to [g].  The answer does not depend on what the recursive
    calls would return, and is already reached with fuel 1: the GSUB
    table is never entered. *)
Theorem C3_direct_hit_round_trip (font : TTFont) (g : string) :
  cmap_wf font →
  is_Some (reverse_cmap (__init__ font) !! g) →
  ∃ v : Z,
    cmap_get font v = Some g ∧
    ∀ (features : list string) (pad : bool),
      let answer : outcome (option input) :=
        Return (Some (features, if pad then [SPACE; SPACE; v] else [v])) in
      (∀ resolve,
         input_from_name_body (__init__ font) resolve g features pad = answer) ∧
      (∀ fuel, input_from_name (__init__ font) (S fuel) g features pad = answer).
Proof.
  intros [Hnd Hrange] [v Hv]. exists v.
  pose proof (build_reverse_cmap_lookup font g v Hv) as Hin.
  split.
  - unfold cmap_get. by apply elem_of_list_to_map_1.
  - intros features pad answer.
    assert (unichr v = Return [v]) as Hchr.
    { rewrite Forall_forall in Hrange. specialize (Hrange _ Hin). simpl in Hrange.
      unfold unichr.
      destruct (Z.leb_spec 0 v); [|lia]. destruct (Z.ltb_spec v 0x110000); [done|lia]. }
    assert (∀ resolve,
      input_from_name_body (__init__ font) resolve g features pad = answer) as Hbody.
    { intros resolve. unfold input_from_name_body.
      change (reverse_cmap (__init__ font) !! g) with (build_reverse_cmap font !! g).
      simpl in Hv. rewrite Hv, Hchr. subst answer. by destruct pad. }
    split; [done|]. intros fuel. apply Hbody.
Qed.

Lemma C3_direct_hit_round_trip_witness :
  ∃ v : Z,
    cmap_get font_plain v = Some "A" ∧
    ∀ (features : list string) (pad : bool),
      let answer : outcome (option input) :=
        Return (Some (features, if pad then [SPACE; SPACE; v] else [v])) in
      (∀ resolve,
         input_from_name_body (__init__ font_plain) resolve "A" features pad = answer) ∧
      (∀ fuel, input_from_name (__init__ font_plain) (S fuel) "A" features pad = answer).
Proof.
  apply (C3_direct_hit_round_trip font_plain "A").
  - split.
    + simpl. apply NoDup_singleton.
    + repeat constructor; simpl; lia.
  - exists 65. reflexivity.
Defined.

(** C4, as stated, fails: in [font_two_chains] lookup 0 is the target of
    a SubstLookupRecord of the Type 6 subtable [chain_Y], no feature
    record lists it, and [chain_Y] declares the lookahead context "Y";
    yet [_input_with_context] resolves the sequence "A" "X", taken from
    [chain_X], which the scan meets first. *)
Lemma C4_counterexample :
  chain_targets [SingleSubstLookup [mkSingleSubst [("A", "B")]];
                 ChainContextSubstLookup [chain_X; chain_Y]] chain_Y 0 ∧
  activating_feature gsub_two_chains 0 = None ∧
  LookAheadCoverage chain_Y = [mkCoverage ["Y"]] ∧
  text_of (__init__ font_two_chains) "A" = Some [65] ∧
  text_of (__init__ font_two_chains) "Y" = Some [89] ∧
  _input_with_context (__init__ font_two_chains) 1 gsub_two_chains "A" 0 [] =
    Return (Some ([], [65; 88])) ∧
  ∀ fuel, _input_with_context (__init__ font_two_chains) fuel gsub_two_chains "A" 0 []
            ≠ Return (Some ([], [65] ++ [89])).
Proof.
  split; [|split; [|split; [|split; [|split; [|split]]]]]; try reflexivity.
  - exists [chain_X; chain_Y], (mkSubstLookupRec 0 0).
    split; [right; by left|]. split; [right; by left|]. split; [by left|done].
  - intros [|fuel]; [done|].
    rewrite (_input_with_context_chain _ _ gsub_two_chains
               [SingleSubstLookup [mkSingleSubst [("A", "B")]];
                ChainContextSubstLookup [chain_X; chain_Y]] _ _ _ chain_X)
      by reflexivity.
    change (context_glyphs chain_X "A") with (Return (A:=list string) ["A"; "X"]).
    rewrite outcome_bind_Return.
    by rewrite (_sequence_from_glyph_names_direct _ fuel ["A"; "X"] [[65]; [88]])
      by (by repeat constructor).
Qed.

(** C4, amended.  Let no feature record list [k], and let [st] be the
    first Type 6 subtable, in scan order, that holds a SubstLookupRecord
    for [k] and declares a context.  If [st] declares lookahead context,
    [_input_with_context] resolves the two-glyph sequence made of the
    trigger glyph and the first glyph [X] of the first lookahead
    coverage, and, when both have a direct hit, returns the text of the
    trigger followed by the text of [X]; otherwise [st] declares
    backtrack context and the sequence is the first glyph of the first
    backtrack coverage followed by the trigger.  A Type 6 subtable that
    declares neither context is skipped: the call answers as if the
    subtable were not there. *)
Theorem C4_chaining_context (self : HbInputGenerator) :
  (∀ gsub lookups k st,
     LookupList gsub = Some lookups →
     (∀ tag, ¬ activated_by gsub k tag) →
     first_chain lookups k = Some st →
     ∀ fuel glyph features,
       (∀ c cs X Xs,
          LookAheadCoverage st = c :: cs → glyphs c = X :: Xs →
          _input_with_context self fuel gsub glyph k features =
            Some <$> _sequence_from_glyph_names self fuel [glyph; X] features ∧
          ∀ text_glyph text_X,
            text_of self glyph = Some text_glyph → text_of self X = Some text_X →
            _input_with_context self (S fuel) gsub glyph k features =
              Return (Some (features, text_glyph ++ text_X))) ∧
       (∀ c cs Y Ys,
          LookAheadCoverage st = [] →
          BacktrackCoverage st = c :: cs → glyphs c = Y :: Ys →
          _input_with_context self fuel gsub glyph k features =
            Some <$> _sequence_from_glyph_names self fuel [Y; glyph] features ∧
          ∀ text_glyph text_Y,
            text_of self glyph = Some text_glyph → text_of self Y = Some text_Y →
            _input_with_context self (S fuel) gsub glyph k features =
              Return (Some (features, text_Y ++ text_glyph)))) ∧
  (∀ feature_list pre spre st spost post,
     LookAheadCoverage st = [] → BacktrackCoverage st = [] →
     ∀ fuel glyph k features,
       _input_with_context self fuel
         (mktable_GSUB feature_list
            (Some (pre ++ ChainContextSubstLookup (spre ++ st :: spost) :: post)))
         glyph k features =
       _input_with_context self fuel
         (mktable_GSUB feature_list
            (Some (pre ++ ChainContextSubstLookup (spre ++ spost) :: post)))
         glyph k features).
Proof.
  split.
  - intros gsub lookups k st Hl Hfeat Hchain fuel glyph features.
    apply activating_feature_None in Hfeat.
    assert (∀ fuel', _input_with_context self fuel' gsub glyph k features =
      glyphs ← context_glyphs st glyph;
      Some <$> _sequence_from_glyph_names self fuel' glyphs features) as Hstep.
    { intros fuel'. by apply _input_with_context_chain with lookups. }
    split.
    + intros c cs X Xs Ha HX.
      assert (context_glyphs st glyph = Return [glyph; X]) as Hctx.
      { unfold context_glyphs. by rewrite Ha, HX. }
      split; [by rewrite Hstep, Hctx|].
      intros text_glyph text_X Hg HtX. rewrite Hstep, Hctx, outcome_bind_Return.
      rewrite (_sequence_from_glyph_names_direct _ fuel [glyph; X] [text_glyph; text_X])
        by (by repeat constructor).
      simpl. by rewrite app_nil_r.
    + intros c cs Y Ys Ha Hb HY.
      assert (context_glyphs st glyph = Return [Y; glyph]) as Hctx.
      { unfold context_glyphs. by rewrite Ha, Hb, HY. }
      split; [by rewrite Hstep, Hctx|].
      intros text_glyph text_Y Hg HtY. rewrite Hstep, Hctx, outcome_bind_Return.
      rewrite (_sequence_from_glyph_names_direct _ fuel [Y; glyph] [text_Y; text_glyph])
        by (by repeat constructor).
      simpl. by rewrite app_nil_r.
  - intros feature_list pre spre st spost post Ha Hb fuel glyph k features.
    rewrite !_input_with_context_eq. simpl.
    by rewrite (first_chain_skip pre spre st spost post k Ha Hb).
Qed.

Lemma C4_chaining_context_witness :
  _input_with_context (__init__ font_two_chains) 1 gsub_two_chains "A" 0 [] =
    Return (Some ([], [65] ++ [88])).
Proof.
  refine (proj2 (proj1 (proj1 (C4_chaining_context (__init__ font_two_chains))
    gsub_two_chains
    [SingleSubstLookup [mkSingleSubst [("A", "B")]];
     ChainContextSubstLookup [chain_X; chain_Y]] 0%nat chain_X _ _ _ 0%nat "A" [])
    (mkCoverage ["X"]) [] "X" [] _ _) [65] [88] _ _).
  - reflexivity.
  - apply activating_feature_None. reflexivity.
  - reflexivity.
  - reflexivity.
  - reflexivity.
  - reflexivity.
  - reflexivity.
Defined.

(** C5. When no feature record lists [lookup_index] and no Type 6
    subtable holding a SubstLookupRecord for [lookup_index] declares a
    lookahead or a backtrack context, [_input_with_context] raises
    [ValueError('Lookup list index %d not found.' % lookup_index)]: an
    exception that names the lookup index, not the absent result
    [None]. It does so without any recursive call (whatever the fuel). *)
Theorem C5_unreachable_lookup_raises (self : HbInputGenerator) (gsub : table_GSUB)
    (lookups : list Lookup) (lookup_index : nat) :
  LookupList gsub = Some lookups →
  (∀ tag, ¬ activated_by gsub lookup_index tag) →
  (∀ st, chain_targets lookups st lookup_index →
         LookAheadCoverage st = [] ∧ BacktrackCoverage st = []) →
  ∀ fuel glyph features,
    _input_with_context self fuel gsub glyph lookup_index features =
      Raise (ValueError_lookup lookup_index) ∧
    _input_with_context self fuel gsub glyph lookup_index features ≠ Return None.
Proof.
  intros Hl Hfeat Hchain fuel glyph features.
  rewrite _input_with_context_eq.
  apply activating_feature_None in Hfeat. apply first_chain_None in Hchain.
  by rewrite Hfeat, Hl, Hchain.
Qed.

Lemma C5_unreachable_lookup_raises_witness :
  _input_with_context (__init__ font_plain) 0 gsub_no_context "A" 0 [] =
    Raise (ValueError_lookup 0) ∧
  _input_with_context (__init__ font_plain) 0 gsub_no_context "A" 0 []
    ≠ Return None.
Proof.
  apply (C5_unreachable_lookup_raises (__init__ font_plain) gsub_no_context
           [SingleSubstLookup [mkSingleSubst [("A", "B")]];
            ChainContextSubstLookup
              [mkChainContextSubst [] [] [mkSubstLookupRec 0 0]]] 0).
  - reflexivity.
  - apply activating_feature_None. reflexivity.
  - apply first_chain_None. reflexivity.
Defined.

(** C6, as stated, fails: in [font_single] the glyph "B" has zero
    advance width and [all_inputs] resolves it (through the Type 1 rule
    from "A"), yet its text is "A" with no space before it: [pad] is
    only read on a direct hit and is not passed on to the recursive
    calls. *)
Lemma C6_counterexample :
  width (getGlyphSet font_single "B") = 0 ∧
  input_from_name (__init__ font_single) 2 "B" []
    (width (getGlyphSet font_single "B") =? 0)%Z = Return (Some (["test"], [65])) ∧
  all_inputs (__init__ font_single) 2 = Return [([], [65]); (["test"], [65])] ∧
  ∀ rest : list Z, [65] ≠ [SPACE; SPACE] ++ rest.
Proof.
  split; [reflexivity|]. split; [reflexivity|]. split; [reflexivity|].
  intros rest. discriminate.
Qed.

(** C6, amended.  For every glyph with a direct Unicode hit on a code
    point [v], [all_inputs] passes [pad = (width == 0)] and the entry it
    collects for the glyph is no feature and a text that is [v] after
    exactly two U+0020 SPACE when the advance width is zero, and [v]
    alone otherwise (so a glyph of non-zero width mapped from U+0041
    yields ([], "A")); when [all_inputs] returns, that entry is in the
    result. *)
Theorem C6_padding_on_direct_hit (self : HbInputGenerator) (name : string) (v : Z) :
  reverse_cmap self !! name = Some v →
  0 ≤ v < 0x110000 →
  ∀ fuel, ∃ text : list Z,
    input_from_name self (S fuel) name []
      (width (getGlyphSet (font self) name) =? 0)%Z = Return (Some ([], text)) ∧
    (text = [SPACE; SPACE; v] ↔ width (getGlyphSet (font self) name) = 0) ∧
    (width (getGlyphSet (font self) name) ≠ 0 → text = [v]) ∧
    (∀ names inputs,
       all_inputs_loop self (S fuel) (name :: names) inputs =
         all_inputs_loop self (S fuel) names (inputs ++ [([], text)])) ∧
    (∀ names1 names2 result,
       getGlyphOrder (font self) = names1 ++ name :: names2 →
       all_inputs self (S fuel) = Return result →
       ([], text) ∈ result).
Proof.
  intros Hv Hrange fuel.
  assert (text_of self name = Some [v]) as Htext.
  { unfold text_of, unichr. rewrite Hv.
    destruct (Z.leb_spec 0 v); [|lia]. by destruct (Z.ltb_spec v 0x110000); [|lia]. }
  set (w := width (getGlyphSet (font self) name)).
  exists (if (w =? 0)%Z then [SPACE; SPACE; v] else [v]).
  assert (input_from_name self (S fuel) name [] (w =? 0)%Z =
          Return (Some ([], if (w =? 0)%Z then [SPACE; SPACE; v] else [v]))) as Hcall.
  { rewrite (input_from_name_direct _ _ _ _ _ _ Htext). by destruct (w =? 0)%Z. }
  assert (∀ names inputs,
    all_inputs_loop self (S fuel) (name :: names) inputs =
      all_inputs_loop self (S fuel) names
        (inputs ++ [([], if (w =? 0)%Z then [SPACE; SPACE; v] else [v])])) as Hloop.
  { intros names inputs.
    change (all_inputs_loop self (S fuel) (name :: names) inputs) with
      (cur_input ← input_from_name self (S fuel) name [] (w =? 0)%Z;
       match cur_input with
       | Some cur_input => all_inputs_loop self (S fuel) names (inputs ++ [cur_input])
       | None => all_inputs_loop self (S fuel) names inputs
       end).
    by rewrite Hcall. }
  split; [done|]. split; [|split; [|split; [done|]]].
  - destruct (Z.eqb_spec w 0); split; done.
  - intros Hw. by destruct (Z.eqb_spec w 0).
  - intros names1 names2 result Horder. unfold all_inputs.
    rewrite Horder, all_inputs_loop_app.
    destruct (all_inputs_loop self (S fuel) names1 []) as [inputs| |]; try done.
    rewrite outcome_bind_Return, Hloop.
    intros (more & ->)%all_inputs_loop_prefix.
    apply elem_of_app. left. apply elem_of_app. right. by left.
Qed.

Lemma C6_padding_on_direct_hit_witness :
  ∃ text : list Z,
    input_from_name (__init__ font_plain) 1 "A" []
      (width (getGlyphSet (font (__init__ font_plain)) "A") =? 0)%Z =
      Return (Some ([], text)) ∧
    (text = [SPACE; SPACE; 65] ↔
       width (getGlyphSet (font (__init__ font_plain)) "A") = 0) ∧
    (width (getGlyphSet (font (__init__ font_plain)) "A") ≠ 0 → text = [65]) ∧
    (∀ names inputs,
       all_inputs_loop (__init__ font_plain) 1 ("A" :: names) inputs =
         all_inputs_loop (__init__ font_plain) 1 names (inputs ++ [([], text)])) ∧
    (∀ names1 names2 result,
       getGlyphOrder (font (__init__ font_plain)) = names1 ++ "A" :: names2 →
       all_inputs (__init__ font_plain) 1 = Return result →
       ([], text) ∈ result).
Proof.
  apply (C6_padding_on_direct_hit (__init__ font_plain) "A" 65).
  - reflexivity.
  - lia.
Defined.

(** C7. A glyph absent from the reverse character map resolves to the
    absent result [None] (a returned value, not an exception) whenever
    the font has no GSUB table, or the lookup list is absent or empty,
    or no Type 1 mapping and no Type 4 ligature record of any lookup
    produces the glyph.  Such a glyph adds nothing to what [all_inputs]
    returns: the result is the one of the glyph order without it. *)
Theorem C7_unreachable_is_absent (self : HbInputGenerator) (g : string) :
  reverse_cmap self !! g = None →
  (GSUB (font self) = None ∨
   ∃ gsub, GSUB (font self) = Some gsub ∧
     (LookupList gsub = None ∨
      ∃ lookups, LookupList gsub = Some lookups ∧
        (lookups = [] ∨ no_rule_produces lookups g))) →
  ∀ fuel,
    (∀ features pad, input_from_name self (S fuel) g features pad = Return None) ∧
    (∀ names1 names2,
       getGlyphOrder (font self) = names1 ++ g :: names2 →
       all_inputs self (S fuel) = all_inputs_loop self (S fuel) (names1 ++ names2) []).
Proof.
  intros Hg Hfont fuel.
  assert (∀ features pad, input_from_name self (S fuel) g features pad = Return None)
    as Hnone.
  { intros features pad. rewrite input_from_name_S, Hg.
    destruct Hfont as [->|(gsub & -> & [->|(lookups & -> & Hl)])]; try done.
    replace (first_rule lookups g) with (@None rule); [done|].
    symmetry. destruct Hl as [->|Hl]; [done|]. by apply first_rule_None. }
  split; [done|].
  intros names1 names2 Horder. unfold all_inputs.
  rewrite Horder, !all_inputs_loop_app.
  destruct (all_inputs_loop self (S fuel) names1 []) as [inputs| |]; try done.
  rewrite !outcome_bind_Return.
  change (all_inputs_loop self (S fuel) (g :: names2) inputs) with
    (cur_input ← input_from_name self (S fuel) g []
                   (width (getGlyphSet (font self) g) =? 0)%Z;
     match cur_input with
     | Some cur_input => all_inputs_loop self (S fuel) names2 (inputs ++ [cur_input])
     | None => all_inputs_loop self (S fuel) names2 inputs
     end).
  by rewrite Hnone.
Qed.

Lemma C7_unreachable_is_absent_witness :
  (∀ features pad,
     input_from_name (__init__ font_plain) 1 "Z" features pad = Return None) ∧
  (∀ names1 names2,
     getGlyphOrder (font (__init__ font_plain)) = names1 ++ "Z" :: names2 →
     all_inputs (__init__ font_plain) 1 =
       all_inputs_loop (__init__ font_plain) 1 (names1 ++ names2) []).
Proof.
  apply (C7_unreachable_is_absent (__init__ font_plain) "Z").
  - reflexivity.
  - left. reflexivity.
Defined.

(** C8.  The code does not do what the claim says.  In
    [font_ligature_unreachable] the ligature "L" has the component "Z",
    which resolves to the absent result.  The call for "L" hands
    "A" "Z" to [_sequence_from_glyph_names], which fails with the
    [TypeError] of unpacking [None] at
    [features, cur_text = self.input_from_name(glyph, features)]: the
    failure is hard and reaches [input_from_name] and [all_inputs], but
    it carries no lookup index, and no [ValueError] is ever raised,
    whatever the depth allowed. *)
Theorem C8_unresolved_element_raises_TypeError :
  input_from_name (__init__ font_ligature_unreachable) 1 "Z" [] false = Return None ∧
  _sequence_from_glyph_names (__init__ font_ligature_unreachable) 1 ["A"; "Z"] [] =
    Raise TypeError ∧
  input_from_name (__init__ font_ligature_unreachable) 2 "L" [] false =
    Raise TypeError ∧
  all_inputs (__init__ font_ligature_unreachable) 2 = Raise TypeError ∧
  ∀ fuel lookup_index,
    input_from_name (__init__ font_ligature_unreachable) fuel "L" [] false ≠
      Raise (ValueError_lookup lookup_index).
Proof.
  split; [reflexivity|]. split; [reflexivity|].
  split; [reflexivity|]. split; [reflexivity|].
  intros fuel lookup_index.
  by apply (input_from_name_excludes _ 2 _ _ _ (Raise TypeError)).
Qed.

(** C9, as stated, fails: with the font [font_single] and a list
    passed as [features], the call for "B" appends "test" to the
    caller's list in place.  The list, shared with the caller, is
    changed by the call, and a second call with the same arguments (the
    same list object) returns features that read "test" "test" where
    the first returned features reading "test". *)
Lemma C9_counterexample :
  input_from_name_st (__init__ font_single) 2 "B" (FeaturesList 0) false
    ({[0%nat := []]} : store) =
    (Return (Some (FeaturesList 0, [65])), {[0%nat := ["test"]]}) ∧
  input_from_name_st (__init__ font_single) 2 "B" (FeaturesList 0) false
    ({[0%nat := ["test"]]} : store) =
    (Return (Some (FeaturesList 0, [65])), {[0%nat := ["test"; "test"]]}) ∧
  ({[0%nat := ["test"]]} : store) ≠ {[0%nat := []]} ∧
  ({[0%nat := ["test"; "test"]]} : store) !! 0%nat ≠
    ({[0%nat := ["test"]]} : store) !! 0%nat.
Proof.
  split; [reflexivity|]. split; [reflexivity|]. split.
  - intros H. apply (f_equal (fun h : store => h !! 0%nat)) in H.
    rewrite !lookup_singleton_eq in H. discriminate H.
  - rewrite !lookup_singleton_eq. discriminate.
Qed.

(** C9, amended.  With [features] passed as a tuple (the default, and
    what every call the module makes itself passes), [input_from_name]
    is deterministic: two calls with the same font and the same
    arguments that come to an end have the same outcome, whatever the
    lists held by the caller and however deep each call may recurse,
    and each leaves every such list as it found it. *)
Theorem C9_deterministic_on_tuple_features (self : HbInputGenerator)
    (name : string) (tags : list string) (pad : bool)
    (fuel1 fuel2 : nat) (h1 h2 : store) :
  determined (input_from_name_st self fuel1 name (FeaturesTuple tags) pad h1).1 →
  determined (input_from_name_st self fuel2 name (FeaturesTuple tags) pad h2).1 →
  (input_from_name_st self fuel1 name (FeaturesTuple tags) pad h1).1 =
    (input_from_name_st self fuel2 name (FeaturesTuple tags) pad h2).1 ∧
  (input_from_name_st self fuel1 name (FeaturesTuple tags) pad h1).2 = h1 ∧
  (input_from_name_st self fuel2 name (FeaturesTuple tags) pad h2).2 = h2.
Proof.
  rewrite !input_from_name_st_tuple. simpl. intros Hd1 Hd2.
  split; [|done]. f_equal.
  apply (input_from_name_agree self fuel1 fuel2 name tags pad); try done.
  - intros Ho. by rewrite Ho in Hd1.
  - intros Ho. by rewrite Ho in Hd2.
Qed.

Lemma C9_deterministic_on_tuple_features_witness :
  (input_from_name_st (__init__ font_single) 2 "B" (FeaturesTuple ["kern"]) true
     ({[0%nat := ["liga"]]} : store)).1 =
    (input_from_name_st (__init__ font_single) 5 "B" (FeaturesTuple ["kern"]) true
       (∅ : store)).1 ∧
  (input_from_name_st (__init__ font_single) 2 "B" (FeaturesTuple ["kern"]) true
     ({[0%nat := ["liga"]]} : store)).2 = {[0%nat := ["liga"]]} ∧
  (input_from_name_st (__init__ font_single) 5 "B" (FeaturesTuple ["kern"]) true
     (∅ : store)).2 = ∅.
Proof.
  apply (C9_deterministic_on_tuple_features (__init__ font_single) "B" ["kern"] true
           2 5 {[0%nat := ["liga"]]} ∅).
  - vm_compute. discriminate.
  - vm_compute. discriminate.
Defined.

(** C10, as stated, fails: in [font_shadowed_loop] a Type 1 subtable
    sends "B" to itself in a lookup the feature record "test" activates,
    "B" is outside the Unicode map and the dependency relation is not
    well-founded; yet [input_from_name] comes to an end on every glyph
    within two nested calls, because the scan finds the rule of lookup 0
    first and never follows the cycle. *)
Lemma C10_counterexample :
  single_subst_at [SingleSubstLookup [mkSingleSubst [("X", "B")]];
                   SingleSubstLookup [mkSingleSubst [("B", "B")]]] 1 "B" "B" ∧
  activated_by gsub_shadowed_loop 1 "test" ∧
  reverse_cmap (__init__ font_shadowed_loop) !! "B" = None ∧
  ¬ well_founded (resolved_for (__init__ font_shadowed_loop)) ∧
  ∀ name features pad,
    determined (input_from_name (__init__ font_shadowed_loop) 2 name features pad).
Proof.
  assert (single_subst_at [SingleSubstLookup [mkSingleSubst [("X", "B")]];
                           SingleSubstLookup [mkSingleSubst [("B", "B")]]] 1 "B" "B")
    as Hloop.
  { exists [mkSingleSubst [("B", "B")]], (mkSingleSubst [("B", "B")]).
    split; [done|]. split; by left. }
  split; [done|]. split; [|split; [reflexivity|split]].
  - exists (mkFeatureRecord "test" [1%nat]).
    split; [right; by left|]. split; [done|by left].
  - apply (not_well_founded_loop _ "B"). split; [reflexivity|].
    by apply (depends_single _ _ 1 "B").
  - intros name features pad.
    destruct (decide (name = "B")) as [->|HB]; [by vm_compute|].
    destruct (decide (name = "X")) as [->|HX]; [by destruct pad; vm_compute|].
    rewrite (input_from_name_no_rule _ 1 name features pad gsub_shadowed_loop
               [SingleSubstLookup [mkSingleSubst [("X", "B")]];
                SingleSubstLookup [mkSingleSubst [("B", "B")]]]); try done.
    + change (reverse_cmap (__init__ font_shadowed_loop))
        with (<["X" := 88]> (∅ : gmap string Z)).
      by rewrite lookup_insert_ne, lookup_empty.
    + unfold first_rule. simpl.
      by rewrite !bool_decide_eq_false_2 by congruence.
Qed.

(** C10, amended.  [input_from_name] comes to an end on every glyph when the
    dependency relation of the rules is well-founded: from any glyph
    outside the Unicode map, the Type 1 output-to-input edges, the
    Type 4 ligature-to-component edges and the Type 6 context edges
    never lead back to a glyph.  Nothing in the code detects a cycle:
    when the rule found for a glyph outside the Unicode map is a Type 1
    entry sending the glyph to itself, in a lookup some feature record
    activates, the relation is not well-founded and the recursion
    through [_input_with_context] exhausts every fuel. *)
Theorem C10_termination_needs_well_founded_rules (self : HbInputGenerator) :
  (well_founded (resolved_for self) →
   ∀ name features pad,
     ∃ fuel, determined (input_from_name self fuel name features pad)) ∧
  (∀ gsub lookups g k tag,
     GSUB (font self) = Some gsub → LookupList gsub = Some lookups →
     reverse_cmap self !! g = None →
     first_rule lookups g = Some (SingleRule g k) →
     activating_feature gsub k = Some tag →
     ¬ well_founded (resolved_for self) ∧
     ∀ fuel features pad, input_from_name self fuel g features pad = OutOfFuel).
Proof.
  split.
  - intros Hwf name.
    induction (Hwf name) as [g _ IH]. by apply terminates_step.
  - intros gsub lookups g k tag Hgsub Hl Hg Hrule Htag. split.
    + apply (not_well_founded_loop _ g). split; [done|].
      rewrite (lookups_of_eq self gsub lookups Hgsub Hl).
      apply (depends_single _ _ k).
      by apply (first_rule_sound lookups g (SingleRule g k)).
    + by apply (input_from_name_cycle self gsub lookups g k tag).
Qed.

Lemma C10_termination_needs_well_founded_rules_witness :
  (∃ fuel, determined (input_from_name (__init__ font_single) fuel "B" [] false)) ∧
  (¬ well_founded (resolved_for (__init__ font_cyclic)) ∧
   ∀ fuel features pad,
     input_from_name (__init__ font_cyclic) fuel "B" features pad = OutOfFuel).
Proof.
  split.
  - apply (proj1 (C10_termination_needs_well_founded_rules (__init__ font_single))).
    apply font_single_well_founded.
  - apply (proj2 (C10_termination_needs_well_founded_rules (__init__ font_cyclic))
             gsub_cyclic [SingleSubstLookup [mkSingleSubst [("B", "B")]]]
             "B" 0%nat "test"); reflexivity.
Defined.

(** * Further properties of the module *)

(** ** build_reverse_cmap *)

Lemma foldl_reverse_insert_other (items : list (Z * string)) (m : gmap string Z) g :
  g ∉ items.*2 →
  foldl (fun (m : gmap string Z) '(v, n) => <[n := v]> m) m items !! g = m !! g.
Proof.
  revert m. induction items as [|[v n] items IH]; intros m Hg; simpl; [done|].
  rewrite fmap_cons, not_elem_of_cons in Hg. destruct Hg as [Hne Hg].
  rewrite IH by done. by rewrite lookup_insert_ne.
Qed.

Lemma foldl_reverse_insert_is_Some (items : list (Z * string)) (m : gmap string Z) g :
  g ∈ items.*2 →
  is_Some (foldl (fun (m : gmap string Z) '(v, n) => <[n := v]> m) m items !! g).
Proof.
  revert m. induction items as [|[v n] items IH]; intros m Hg; simpl.
  - by apply elem_of_nil in Hg.
  - destruct (decide (g ∈ items.*2)) as [Hin|Hnin]; [by apply IH|].
    rewrite fmap_cons in Hg. apply elem_of_cons in Hg as [->|Hg]; [|done].
    rewrite foldl_reverse_insert_other by done.
    rewrite lookup_insert_eq. by eexists.
Qed.

(** X1. The reverse character map covers exactly the glyphs of the
    forward map: a glyph has an entry if and only if some code point
    maps to it. *)
Theorem build_reverse_cmap_domain (font : TTFont) (g : string) :
  is_Some (build_reverse_cmap font !! g) ↔ g ∈ (get_largest_cmap font).*2.
Proof.
  split.
  - intros [v Hv]. apply build_reverse_cmap_lookup in Hv.
    apply list_elem_of_fmap. by exists (v, g).
  - intros Hg. by apply foldl_reverse_insert_is_Some.
Qed.

(** X2. When several code points map to one glyph, the reverse
    character map keeps the one that comes last in the iteration of the
    forward map. *)
Theorem build_reverse_cmap_last_wins (font : TTFont) (v : Z) (g : string)
    (before after : list (Z * string)) :
  get_largest_cmap font = before ++ (v, g) :: after →
  g ∉ after.*2 →
  build_reverse_cmap font !! g = Some v.
Proof.
  intros Hitems Hafter. unfold build_reverse_cmap.
  rewrite Hitems, foldl_app. simpl.
  rewrite foldl_reverse_insert_other by done. apply lookup_insert_eq.
Qed.

Lemma build_reverse_cmap_last_wins_witness :
  build_reverse_cmap font_two_code_points !! "A" = Some 913.
Proof.
  apply (build_reverse_cmap_last_wins font_two_code_points 913 "A" [(65, "A")] []).
  - reflexivity.
  - apply not_elem_of_nil.
Defined.

(** X3. When the forward map is injective (no glyph is mapped from two
    code points), every code point in [unichr]'s range is recovered
    exactly: [input_from_name] on the glyph of [v] returns the text
    made of [v] alone, with the features it was given. *)
Theorem input_from_name_inverts_injective_cmap (font : TTFont) (v : Z) (g : string) :
  NoDup (get_largest_cmap font).*2 →
  (v, g) ∈ get_largest_cmap font →
  0 ≤ v < 0x110000 →
  ∀ fuel features,
    input_from_name (__init__ font) (S fuel) g features false =
      Return (Some (features, [v])).
Proof.
  intros Hnd Hin Hrange fuel features.
  apply list_elem_of_split in Hin as (before & after & Hitems).
  assert (g ∉ after.*2) as Hafter.
  { rewrite Hitems, fmap_app, fmap_cons in Hnd.
    apply NoDup_app in Hnd as (_ & _ & Hnd). by apply NoDup_cons in Hnd as [? _]. }
  pose proof (build_reverse_cmap_last_wins font v g before after Hitems Hafter) as Hv.
  apply (input_from_name_direct (__init__ font) fuel g features false [v]).
  unfold text_of, unichr. simpl. rewrite Hv.
  destruct (Z.leb_spec 0 v); [|lia]. by destruct (Z.ltb_spec v 0x110000); [|lia].
Qed.

Lemma input_from_name_inverts_injective_cmap_witness :
  input_from_name (__init__ font_two_rules) 1 "X" ["liga"] false =
    Return (Some (["liga"], [88])).
Proof.
  apply (input_from_name_inverts_injective_cmap font_two_rules 88 "X").
  - simpl. apply NoDup_cons. split; [|apply NoDup_singleton].
    intros H%list_elem_of_singleton. discriminate H.
  - right. left.
  - lia.
Defined.

(** ** Padding and the batch driver *)

(** X4. [pad] only matters on a direct hit: for a glyph of the reverse
    character map the padded call returns the result of the unpadded
    one with two spaces before the text (and fails as it fails); for
    any other glyph the two calls have the same outcome. *)
Theorem input_from_name_pad (self : HbInputGenerator) (fuel : nat) (name : string)
    (features : list string) :
  input_from_name self fuel name features true =
    match reverse_cmap self !! name with
    | Some _ => padded <$> input_from_name self fuel name features false
    | None => input_from_name self fuel name features false
    end.
Proof.
  destruct fuel as [|fuel]; [by destruct (reverse_cmap self !! name)|].
  rewrite !input_from_name_S.
  destruct (reverse_cmap self !! name) as [v|]; [|done].
  by destruct (unichr v).
Qed.

Lemma all_inputs_loop_Return self fuel names inputs result :
  all_inputs_loop self fuel names inputs = Return result ↔
  ∃ rs : list (option input),
    Forall2 (fun name r =>
               input_from_name self fuel name []
                 (width (getGlyphSet (font self) name) =? 0)%Z = Return r) names rs ∧
    result = inputs ++ omap id rs.
Proof.
  revert inputs. induction names as [|name names IH]; intros inputs; simpl.
  - split.
    + intros [= <-]. exists []. split; [constructor|]. by rewrite app_nil_r.
    + intros (rs & Hrs & ->). apply Forall2_nil_inv_l in Hrs as ->.
      simpl. by rewrite app_nil_r.
  - split.
    + destruct (input_from_name self fuel name [] _) as [[cur|]| |] eqn:Hcall;
        simpl; try done.
      * intros (rs & Hrs & ->)%IH. exists (Some cur :: rs).
        split; [by constructor|]. simpl. by rewrite <- app_assoc.
      * intros (rs & Hrs & ->)%IH. exists (None :: rs). split; [by constructor|done].
    + intros (rs & Hrs & ->).
      apply Forall2_cons_inv_l in Hrs as (r & rs' & Hcall & Hrs & ->).
      rewrite Hcall. simpl. destruct r as [cur|]; simpl.
      * apply IH. exists rs'. split; [done|]. by rewrite <- app_assoc.
      * apply IH. by exists rs'.
Qed.

(** X5. [all_inputs] returns a list exactly when the call for every
    glyph of the glyph order returns (an entry or [None]); the list is
    then the entries, in glyph order, of the glyphs whose call returned
    one. *)
Theorem all_inputs_Return (self : HbInputGenerator) (fuel : nat)
    (result : list input) :
  all_inputs self fuel = Return result ↔
  ∃ rs : list (option input),
    Forall2 (fun name r =>
               input_from_name self fuel name []
                 (width (getGlyphSet (font self) name) =? 0)%Z = Return r)
            (getGlyphOrder (font self)) rs ∧
    result = omap id rs.
Proof. unfold all_inputs. by rewrite all_inputs_loop_Return. Qed.

(** X6. An exception in the call for one glyph ends the whole batch:
    when the calls for the glyphs before [name] return and the call for
    [name] raises [e], [all_inputs] raises [e] and returns no list. *)
Theorem all_inputs_raises (self : HbInputGenerator) (fuel : nat)
    (before after : list string) (name : string) (e : exn) :
  getGlyphOrder (font self) = before ++ name :: after →
  Forall (fun name' => ∃ r,
            input_from_name self fuel name' []
              (width (getGlyphSet (font self) name') =? 0)%Z = Return r) before →
  input_from_name self fuel name []
    (width (getGlyphSet (font self) name) =? 0)%Z = Raise e →
  all_inputs self fuel = Raise e.
Proof.
  intros Horder Hbefore Hname. unfold all_inputs. rewrite Horder. clear Horder.
  generalize (@nil input) as inputs.
  induction Hbefore as [|name' before [r Hr] _ IH]; intros inputs; simpl.
  - by rewrite Hname.
  - rewrite Hr. simpl. destruct r; apply IH.
Qed.

Lemma all_inputs_raises_witness :
  all_inputs (__init__ (mkTTFont ["A"; "B"; "A"] (fun _ => mkGlyph 600)
                          [(65, "A")] (Some gsub_no_context))) 2 =
    Raise (ValueError_lookup 0).
Proof.
  apply (all_inputs_raises _ 2 ["A"] ["A"] "B" (ValueError_lookup 0)).
  - reflexivity.
  - constructor; [|constructor]. eexists. reflexivity.
  - reflexivity.
Defined.

(** X7. Without a GSUB table, and with every code point of the reverse
    character map in [unichr]'s range, [all_inputs] never fails: it
    returns, in glyph order, one entry for each glyph that has a direct
    hit, with no feature, padded when the width is zero. *)
Theorem all_inputs_without_GSUB (self : HbInputGenerator) :
  GSUB (font self) = None →
  (∀ g v, reverse_cmap self !! g = Some v → 0 ≤ v < 0x110000) →
  ∀ fuel,
    all_inputs self (S fuel) =
      Return (omap (direct_input self) (getGlyphOrder (font self))).
Proof.
  intros Hgsub Hrange fuel. apply all_inputs_Return.
  exists (direct_input self <$> getGlyphOrder (font self)). split.
  - apply Forall2_fmap_r, Forall_Forall2_diag, Forall_forall. intros name _.
    unfold compose, direct_input. rewrite input_from_name_S, Hgsub.
    destruct (reverse_cmap self !! name) as [v|] eqn:Hv; [|done].
    specialize (Hrange _ _ Hv). unfold unichr.
    destruct (Z.leb_spec 0 v); [|lia]. destruct (Z.ltb_spec v 0x110000); [|lia].
    simpl. by destruct (_ =? _)%Z.
  - induction (getGlyphOrder (font self)) as [|name names IH]; [done|].
    csimpl. rewrite IH. by destruct (direct_input self name).
Qed.

Lemma all_inputs_without_GSUB_witness :
  all_inputs (__init__ font_plain) 1 =
    Return (omap (direct_input (__init__ font_plain))
                 (getGlyphOrder (font (__init__ font_plain)))).
Proof.
  apply (all_inputs_without_GSUB (__init__ font_plain)).
  - reflexivity.
  - intros g v Hv. apply build_reverse_cmap_lookup in Hv.
    apply list_elem_of_singleton in Hv. injection Hv as -> _. lia.
Defined.

(** ** What a returned result is made of *)

Lemma context_glyphs_two st glyph gs :
  context_glyphs st glyph = Return gs → ∃ g1 g2, gs = [g1; g2].
Proof.
  unfold context_glyphs.
  destruct (LookAheadCoverage st) as [|c cs];
    [destruct (BacktrackCoverage st) as [|c cs]; [done|]|];
    destruct (glyphs c) as [|x xs]; try done; intros [= <-]; by eexists _, _.
Qed.

Section ResultInvariant.

Variable self : HbInputGenerator.

(** [I features features' text]: a property of the result
    [(features', text)] of a call given [features], kept by each way
    the module builds a result. *)
Variable I : list string → list string → list Z → Prop.

Hypothesis I_direct : ∀ name v features,
  reverse_cmap self !! name = Some v → 0 ≤ v < 0x110000 →
  I features features [v].

Hypothesis I_feature : ∀ gsub feature features features' text,
  GSUB (font self) = Some gsub → feature ∈ FeatureList gsub →
  I (features ++ [FeatureTag feature]) features' text →
  I features features' text.

Hypothesis I_sequence : ∀ features features1 features2 text1 text2,
  I features features1 text1 → I features1 features2 text2 →
  I features features2 (text1 ++ text2).

Lemma sequence_invariant resolve :
  (∀ glyph features features' text,
     resolve glyph features = Return (Some (features', text)) →
     I features features' text) →
  ∀ glyphs glyph features features' text,
    _sequence_from_glyph_names_body resolve (glyph :: glyphs) features =
      Return (features', text) →
    I features features' text.
Proof.
  intros Hresolve rest.
  induction rest as [|glyph' glyphs IH]; intros glyph features features' text;
    rewrite _sequence_from_glyph_names_body_cons;
    destruct (resolve glyph features) as [[[features1 text1]|]| |] eqn:Hr;
    try done; simpl.
  - intros [= <- <-]. rewrite app_nil_r. by apply Hresolve in Hr.
  - destruct (_sequence_from_glyph_names_body resolve (glyph' :: glyphs) features1)
      as [[features2 text2]| |] eqn:Hrest; try done.
    simpl. intros [= <- <-].
    apply I_sequence with features1; [by apply Hresolve in Hr|by apply IH in Hrest].
Qed.

Lemma input_from_name_invariant fuel name features features' text :
  input_from_name self fuel name features false = Return (Some (features', text)) →
  I features features' text.
Proof.
  revert name features features' text.
  induction fuel as [|fuel IH]; intros name features features' text; [done|].
  assert (∀ glyph glyphs f f' t,
    _sequence_from_glyph_names self fuel (glyph :: glyphs) f = Return (f', t) →
    I f f' t) as Hseq.
  { intros glyph glyphs f f' t. apply sequence_invariant. intros ????. apply IH. }
  rewrite input_from_name_S.
  destruct (reverse_cmap self !! name) as [v|] eqn:Hname.
  { unfold unichr. destruct (0 <=? v)%Z eqn:H0; destruct (v <? 0x110000)%Z eqn:H1;
      try done. simpl. intros [= <- <-]. apply (I_direct name); [done|lia]. }
  destruct (GSUB (font self)) as [gsub|] eqn:Hgsub; [|done].
  destruct (LookupList gsub) as [lookups|] eqn:Hl; [|done].
  destruct (first_rule lookups name) as [[a k|components]|] eqn:Hrule; [| |done].
  - rewrite _input_with_context_eq, Hl.
    destruct (activating_feature gsub k) as [tag|] eqn:Htag.
    + intros Hcall%IH.
      apply activating_feature_Some in Htag as (feature & Hin & <- & _).
      by apply (I_feature gsub feature).
    + destruct (first_chain lookups k) as [st|]; [|done].
      destruct (context_glyphs st a) as [gs| |] eqn:Hctx; try done.
      apply context_glyphs_two in Hctx as (g1 & g2 & ->).
      rewrite outcome_bind_Return.
      destruct (_sequence_from_glyph_names self fuel [g1; g2] features)
        as [[f' t]| |] eqn:Hs; try done.
      intros [= <- <-]. by apply Hseq in Hs.
  - apply first_rule_sound in Hrule as (?&?&prefix&?&ligature&_&_&_&_&_&->).
    destruct (_sequence_from_glyph_names self fuel (prefix :: Component ligature)
                features) as [[f' t]| |] eqn:Hs; try done.
    intros [= <- <-]. by apply Hseq in Hs.
Qed.

End ResultInvariant.

(** X8. The features of a result are the features given to the call
    followed by tags that all are tags of feature records of the font's
    GSUB table: no feature passed in is dropped or moved, and no tag is
    made up. *)
Theorem input_from_name_features (self : HbInputGenerator) (fuel : nat)
    (name : string) (features features' : list string) (pad : bool) (text : list Z) :
  input_from_name self fuel name features pad = Return (Some (features', text)) →
  ∃ tags, features' = features ++ tags ∧
          Forall (fun tag => tag ∈ font_feature_tags self) tags.
Proof.
  assert (∀ text0,
    input_from_name self fuel name features false = Return (Some (features', text0)) →
    ∃ tags, features' = features ++ tags ∧
            Forall (fun tag => tag ∈ font_feature_tags self) tags) as Hfalse.
  { intros text0.
    apply (input_from_name_invariant self (fun f f' _ =>
      ∃ tags, f' = f ++ tags ∧ Forall (fun tag => tag ∈ font_feature_tags self) tags)).
    - intros _ _ f _ _. exists []. by rewrite app_nil_r.
    - intros gsub feature f f' _ Hgsub Hin (tags & -> & Htags).
      exists (FeatureTag feature :: tags). split; [by rewrite <- app_assoc|].
      constructor; [|done]. unfold font_feature_tags. rewrite Hgsub.
      by apply list_elem_of_fmap_2.
    - intros f f1 f2 _ _ (tags1 & -> & H1) (tags2 & -> & H2).
      exists (tags1 ++ tags2). split; [by rewrite app_assoc|by apply Forall_app]. }
  destruct pad; [|apply Hfalse].
  rewrite input_from_name_pad.
  destruct (reverse_cmap self !! name); [|apply Hfalse].
  destruct (input_from_name self fuel name features false) as [[[f t]|]| |];
    try done.
  simpl. intros [= <- <-]. by apply (Hfalse t).
Qed.

Lemma input_from_name_features_witness :
  ∃ tags, ["liga"; "test"] = ["liga"] ++ tags ∧
          Forall (fun tag => tag ∈ font_feature_tags (__init__ font_single)) tags.
Proof.
  apply (input_from_name_features (__init__ font_single) 2 "B" ["liga"]
           ["liga"; "test"] true [65]).
  reflexivity.
Defined.

(** X9. The text of a result is never empty, and each of its code
    points is a code point the reverse character map gives to some
    glyph (for [HbInputGenerator(font)], a code point of the font's
    cmap), apart from the spaces of a padded call. *)
Theorem input_from_name_text (font : TTFont) (fuel : nat)
    (name : string) (features features' : list string) (pad : bool) (text : list Z) :
  input_from_name (__init__ font) fuel name features pad =
    Return (Some (features', text)) →
  text ≠ [] ∧
  Forall (fun c => (pad = true ∧ c = SPACE) ∨ c ∈ (get_largest_cmap font).*1) text.
Proof.
  assert (∀ text0,
    input_from_name (__init__ font) fuel name features false =
      Return (Some (features', text0)) →
    text0 ≠ [] ∧ Forall (fun c => c ∈ (get_largest_cmap font).*1) text0) as Hfalse.
  { intros text0.
    apply (input_from_name_invariant (__init__ font) (fun _ _ t =>
      t ≠ [] ∧ Forall (fun c => c ∈ (get_largest_cmap font).*1) t)).
    - intros g v _ Hv _. split; [done|]. constructor; [|done].
      apply build_reverse_cmap_lookup in Hv.
      apply list_elem_of_fmap. by exists (v, g).
    - by intros.
    - intros _ _ _ t1 t2 [Hne1 H1] [_ H2]. split; [|by apply Forall_app].
      by destruct t1. }
  destruct pad.
  - rewrite input_from_name_pad.
    destruct (reverse_cmap (__init__ font) !! name).
    + destruct (input_from_name (__init__ font) fuel name features false)
        as [[[f t]|]| |] eqn:Hcall; try done.
      simpl. intros [= <- <-]. split; [done|].
      destruct (Hfalse t) as [_ Ht]; [done|].
      repeat (constructor; [by left|]).
      eapply Forall_impl; [exact Ht|]. intros c Hc. by right.
    + intros [Hne Ht]%Hfalse. split; [done|].
      eapply Forall_impl; [exact Ht|]. intros c Hc. by right.
  - intros [Hne Ht]%Hfalse. split; [done|].
    eapply Forall_impl; [exact Ht|]. intros c Hc. by right.
Qed.

Lemma input_from_name_text_witness :
  [65; 67] ≠ [] ∧
  Forall (fun c => (false = true ∧ c = SPACE) ∨
                   c ∈ (get_largest_cmap font_ligature).*1) [65; 67].
Proof.
  apply (input_from_name_text font_ligature 2 "L" [] [] false [65; 67]).
  reflexivity.
Defined.

(** ** Exceptions *)

Lemma sequence_raises resolve (P : exn → Prop) :
  (∀ glyph features e, resolve glyph features = Raise e → P e) →
  (∀ glyph features, resolve glyph features = Return None → P TypeError) →
  ∀ rest features e,
    _sequence_from_glyph_names_body resolve rest features = Raise e → P e.
Proof.
  intros Hraise Hnone rest.
  induction rest as [|glyph rest IH]; intros features e; [done|].
  rewrite _sequence_from_glyph_names_body_cons.
  destruct (resolve glyph features) as [[[features1 text1]|]| |] eqn:Hr;
    try done; simpl.
  - destruct (_sequence_from_glyph_names_body resolve rest features1)
      as [[f t]| |] eqn:Hrest; try done.
    simpl. intros [= <-]. by apply IH in Hrest.
  - intros [= <-]. by apply Hnone in Hr.
  - intros [= <-]. by apply Hraise in Hr.
Qed.

Lemma context_glyphs_Raise st glyph e :
  context_glyphs st glyph = Raise e →
  ¬ (LookAheadCoverage st = [] ∧ BacktrackCoverage st = []) →
  e = IndexError ∧ empty_first_coverage st.
Proof.
  unfold context_glyphs, empty_first_coverage.
  destruct (LookAheadCoverage st) as [|c cs] eqn:Ha.
  - destruct (BacktrackCoverage st) as [|c cs] eqn:Hb; [by intros _ []|].
    destruct (glyphs c) as [|x xs] eqn:Hx; [|done].
    intros [= <-] _. split; [done|]. right. by exists c, cs.
  - destruct (glyphs c) as [|x xs] eqn:Hx; [|done].
    intros [= <-] _. split; [done|]. left. by exists c, cs.
Qed.

(** X10. A [ValueError] naming a lookup index is never raised for a
    lookup that could be activated: when [input_from_name] raises it
    for [k], lookup [k] is a Type 1 lookup producing some glyph, no
    feature record lists [k], and no Type 6 subtable holding a
    SubstLookupRecord for [k] declares a context. *)
Theorem input_from_name_ValueError_lookup (self : HbInputGenerator) (fuel : nat)
    (name : string) (features : list string) (pad : bool) (k : nat) :
  input_from_name self fuel name features pad = Raise (ValueError_lookup k) →
  unreachable_lookup self k.
Proof.
  set (P := fun e => match e with
                     | ValueError_lookup k' => unreachable_lookup self k'
                     | _ => True
                     end).
  enough (∀ e, input_from_name self fuel name features pad = Raise e → P e) as Hall
    by (intros Hk; apply (Hall _ Hk)).
  revert name features pad.
  induction fuel as [|fuel IH]; intros name features pad e; [done|].
  assert (∀ rest f e',
    _sequence_from_glyph_names self fuel rest f = Raise e' → P e') as Hseq.
  { apply sequence_raises; [|done]. intros glyph f e'. apply IH. }
  rewrite input_from_name_S.
  destruct (reverse_cmap self !! name) as [v|] eqn:Hname.
  { unfold unichr. destruct (_ && _); [done|]. simpl. by intros [= <-]. }
  destruct (GSUB (font self)) as [gsub|] eqn:Hgsub; [|done].
  destruct (LookupList gsub) as [lookups|] eqn:Hl; [|done].
  pose proof (lookups_of_eq self gsub lookups Hgsub Hl) as Hlookups.
  destruct (first_rule lookups name) as [[a k'|components]|] eqn:Hrule; [| |done].
  - rewrite _input_with_context_eq, Hl.
    destruct (activating_feature gsub k') as [tag|] eqn:Htag; [apply IH|].
    destruct (first_chain lookups k') as [st|] eqn:Hchain.
    + apply first_chain_Some in Hchain as [Htarget Hctx].
      destruct (context_glyphs st a) as [gs|e'|] eqn:Hgs; try done.
      * rewrite outcome_bind_Return.
        destruct (_sequence_from_glyph_names self fuel gs features)
          as [[f t]|e'|] eqn:Hs; try done.
        intros [= <-]. by apply Hseq in Hs.
      * intros [= <-].
        by destruct (context_glyphs_Raise _ _ _ Hgs Hctx) as [-> _].
    + intros [= <-]. exists gsub, a, name. rewrite Hlookups.
      split; [done|]. split; [by apply (first_rule_sound _ _ _ Hrule)|].
      split; [by apply activating_feature_None|by apply first_chain_None].
  - destruct (_sequence_from_glyph_names self fuel components features)
      as [[f t]|e'|] eqn:Hs; try done.
    intros [= <-]. by apply Hseq in Hs.
Qed.

Lemma input_from_name_ValueError_lookup_witness :
  unreachable_lookup (__init__ font_no_context) 0.
Proof.
  apply (input_from_name_ValueError_lookup (__init__ font_no_context) 1 "B" [] false).
  reflexivity.
Defined.

(** X11. A chaining subtable whose first coverage is empty makes
    [_input_with_context] fail with [IndexError]: when no feature
    record lists [k] and the Type 6 subtable found for [k] declares a
    lookahead (or, without lookahead, a backtrack) coverage that holds
    no glyph, the read of [glyphs[0]] raises. *)
Theorem _input_with_context_empty_coverage (self : HbInputGenerator)
    (gsub : table_GSUB) (lookups : list Lookup) (k : nat) (st : ChainContextSubst) :
  LookupList gsub = Some lookups →
  (∀ tag, ¬ activated_by gsub k tag) →
  first_chain lookups k = Some st →
  empty_first_coverage st →
  ∀ fuel glyph features,
    _input_with_context self fuel gsub glyph k features = Raise IndexError.
Proof.
  intros Hl Hfeat%activating_feature_None Hchain Hempty fuel glyph features.
  rewrite (_input_with_context_chain _ _ _ _ _ _ _ _ Hl Hfeat Hchain).
  unfold context_glyphs.
  destruct Hempty as [(c & cs & -> & ->)|(c & cs & -> & -> & ->)]; done.
Qed.

Lemma _input_with_context_empty_coverage_witness :
  _input_with_context (__init__ font_empty_coverage) 0 gsub_empty_coverage "A" 0 [] =
    Raise IndexError.
Proof.
  apply (_input_with_context_empty_coverage (__init__ font_empty_coverage)
           gsub_empty_coverage
           [SingleSubstLookup [mkSingleSubst [("A", "B")]];
            ChainContextSubstLookup [chain_empty]] 0%nat chain_empty).
  - reflexivity.
  - apply activating_feature_None. reflexivity.
  - reflexivity.
  - left. by exists (mkCoverage []), [].
Defined.

(** ** Chains of single substitutions *)

(** X12. Single substitutions compose: when the rules found from [g]
    down to [g0] are Type 1 entries in activated lookups, with tags
    [tags] from [g] to [g0], and [g0] has a direct hit, the call for
    [g] returns the text of [g0] and the features followed by [tags],
    the tag of the rule producing [g] first.  It does so through
    exactly one nested call of [input_from_name] per rule of the chain:
    an evaluation allowed more nested calls than the chain is long
    returns this result, and one allowed at most that many runs out. *)
Theorem input_from_name_single_chain (self : HbInputGenerator) (gsub : table_GSUB)
    (lookups : list Lookup) (g g0 : string) (tags : list string) (text : list Z) :
  GSUB (font self) = Some gsub →
  LookupList gsub = Some lookups →
  single_chain self gsub lookups g tags g0 →
  text_of self g0 = Some text →
  ∀ fuel features,
    input_from_name self fuel g features false =
      if decide (length tags < fuel)%nat
      then Return (Some (features ++ tags, text))
      else OutOfFuel.
Proof.
  intros Hgsub Hl Hchain Htext.
  induction Hchain as [g|g a k tag tags g0 Hg Hrule Htag _ IH];
    intros [|fuel] features; try done.
  - rewrite (input_from_name_direct _ _ _ _ _ _ Htext).
    rewrite decide_True by (simpl; lia). by rewrite app_nil_r.
  - rewrite input_from_name_S, Hg, Hgsub, Hl, Hrule, _input_with_context_eq, Htag.
    rewrite (IH Htext). simpl.
    destruct (decide (length tags < fuel)%nat).
    + rewrite decide_True by lia. by rewrite <- app_assoc.
    + by rewrite decide_False by lia.
Qed.

Lemma input_from_name_single_chain_witness :
  input_from_name (__init__ font_two_steps) 3 "C" ["kern"] false =
    (if decide (length ["ss01"; "smcp"] < 3)%nat
     then Return (Some (["kern"] ++ ["ss01"; "smcp"], [65]))
     else OutOfFuel) ∧
  input_from_name (__init__ font_two_steps) 2 "C" ["kern"] false =
    (if decide (length ["ss01"; "smcp"] < 2)%nat
     then Return (Some (["kern"] ++ ["ss01"; "smcp"], [65]))
     else OutOfFuel).
Proof.
  assert (single_chain (__init__ font_two_steps) gsub_two_steps
            [SingleSubstLookup [mkSingleSubst [("A", "B")]];
             SingleSubstLookup [mkSingleSubst [("B", "C")]]]
            "C" ["ss01"; "smcp"] "A") as Hchain.
  { apply (single_chain_step _ _ _ "C" "B" 1%nat); try reflexivity.
    apply (single_chain_step _ _ _ "B" "A" 0%nat); try reflexivity.
    apply single_chain_end. }
  split;
    apply (input_from_name_single_chain (__init__ font_two_steps) gsub_two_steps
             [SingleSubstLookup [mkSingleSubst [("A", "B")]];
              SingleSubstLookup [mkSingleSubst [("B", "C")]]]
             "C" "A" ["ss01"; "smcp"] [65]);
    (reflexivity || exact Hchain).
Defined.

(** ** Failure and threading in a sequence *)

(** X13. When an element of the sequence resolves to [None], the
    elements before it having resolved, [_sequence_from_glyph_names]
    raises the [TypeError] of unpacking [None], and [input_from_name]
    lets the exception of a ligature's sequence through.  When an
    element resolves, the features it returns are the features argument
    of the resolution of the next element, and its text comes first in
    the concatenation. *)
Theorem _sequence_from_glyph_names_failure_and_threading (self : HbInputGenerator) (fuel : nat) :
  (∀ pre glyph post features features1 text1,
     _sequence_from_glyph_names self fuel pre features = Return (features1, text1) →
     input_from_name self fuel glyph features1 false = Return None →
     _sequence_from_glyph_names self fuel (pre ++ glyph :: post) features =
       Raise TypeError) ∧
  (∀ gsub lookups L glyphs features pad e,
     GSUB (font self) = Some gsub → LookupList gsub = Some lookups →
     reverse_cmap self !! L = None →
     first_rule lookups L = Some (LigatureRule glyphs) →
     _sequence_from_glyph_names self fuel glyphs features = Raise e →
     input_from_name self (S fuel) L features pad = Raise e) ∧
  (∀ glyph glyphs features features1 text1,
     input_from_name self fuel glyph features false = Return (Some (features1, text1)) →
     _sequence_from_glyph_names self fuel (glyph :: glyphs) features =
       '(features', text') ← _sequence_from_glyph_names self fuel glyphs features1;
       Return (features', text1 ++ text')).
Proof.
  unfold _sequence_from_glyph_names. split; [|split].
  - intros pre glyph post features features1 text1 Hpre Hglyph.
    rewrite _sequence_from_glyph_names_body_app, Hpre, outcome_bind_Return.
    by rewrite _sequence_from_glyph_names_body_cons, Hglyph.
  - intros gsub lookups L glyphs features pad e Hgsub Hl HL Hrule Hseq.
    rewrite input_from_name_S, HL, Hgsub, Hl, Hrule.
    unfold _sequence_from_glyph_names. by rewrite Hseq.
  - intros glyph glyphs features features1 text1 Hglyph.
    by rewrite _sequence_from_glyph_names_body_cons, Hglyph.
Qed.

Lemma _sequence_from_glyph_names_failure_and_threading_witness :
  _sequence_from_glyph_names (__init__ font_plain) 1 (["A"] ++ "Z" :: ["A"]) [] =
    Raise TypeError.
Proof.
  apply (proj1 (_sequence_from_glyph_names_failure_and_threading (__init__ font_plain) 1)
           ["A"] "Z" ["A"] [] [] [65]); reflexivity.
Defined.
